(** * The efflux-tracker sequencer module

    A shallow embedding of [src/store/modules/sequencer-module.js], the Vuex
    store module that schedules the events of a song: [collect], [step],
    [enqueueEvent], [dequeueEvent] and the mutations [setPlaying],
    [setPosition], [setPatternSteps] and friends.

    JavaScript numbers that hold times are IEEE-754 doubles and are modelled
    as Rocq's primitive binary64 floats, operation for operation.  Numbers
    that count (pattern indices, steps, actions) are integers; they are
    converted with [Z2F] where the source mixes them into time arithmetic;
    the index arithmetic of [setPatternSteps] is kept in exact rationals.
    Events are JavaScript objects shared between the song's channels and the
    per-channel queues, so they live in an object store and are named by
    reference. *)

From Stdlib Require Import ZArith List Bool Lia QArith.
From Stdlib Require Import Floats.PrimFloat Floats.SpecFloat Floats.FloatOps.
From Stdlib Require String.
Import ListNotations.
Import String.StringSyntax.

Set Warnings "-inexact-float".

Open Scope Z_scope.

(** ** Numbers *)

(** The double nearest to an integer (round to nearest, ties to even), as a
    JavaScript number holding that integer. *)
Definition Z2F (z : Z) : float :=
  SF2Prim (binary_normalize 53 1024 z 0 false).

Arguments Z2F : simpl never.

(** [a >= b] on doubles. *)
Definition geb (a b : float) : bool := PrimFloat.leb b a.

(** ** Data model *)

(** A reference to an event object. *)
Definition ev_id := nat.

Bind Scope nat_scope with ev_id.

(** [event.seq] *)
Record Seq := mkSeq {
  startMeasure       : Z;
  startMeasureOffset : float;
  seqLength          : float;   (* seq.length *)
  mpLength           : float;
  seqPlaying         : bool     (* seq.playing *)
}.

(** An AUDIO_EVENT, restricted to the fields the sequencer touches. *)
Record AudioEvent := mkEvent {
  action      : Z;
  instrument  : Z;
  evRecording : bool;           (* event.recording *)
  seq         : Seq
}.

(** A slot of a channel: the number 0 of an empty step, [undefined] (what
    reading outside an array yields), or a reference to an event. *)
Inductive Slot :=
| SZero
| SUndefined
| SEvent (e : ev_id).

Definition Channel := list Slot.

Record Pattern := mkPattern {
  steps        : nat;
  patChannels  : list Channel   (* pattern.channels *)
}.

Record Song := mkSong {
  tempo    : float;             (* activeSong.meta.tempo *)
  patterns : list Pattern
}.

(** [state.metronome] *)
Record Metronome := mkMetronome {
  enabled         : bool;
  countIn         : bool;
  countInComplete : bool;
  restore         : bool
}.

(** [state.channels]: the number 0 of the initial state, or the [channels]
    array of a pattern of the song, held by reference. *)
Inductive ChannelsRef :=
| NoChannels
| ChannelsOf (pattern : nat).

(** Modelled from the spec: the linked list of [utils/linked-list], which is
    not part of the sources at hand.  The spec's Voice Queue is a strict
    FIFO with append at the tail, a peek at the head, removal of the head
    and a flush; it is a list of event references, head first. *)
Definition LinkedList := list ev_id.

(** [store.state.sequencer] *)
Record SequencerState := mkState {
  playing               : bool;
  looping               : bool;
  recording             : bool;
  scheduleAheadTime     : float;
  stepPrecision         : Z;
  beatAmount            : Z;
  channelQueue          : list LinkedList;
  activePattern         : Z;
  measureStartTime      : float;
  firstMeasureStartTime : float;
  currentStep           : Z;
  nextNoteTime          : float;
  channels              : ChannelsRef;
  metronome             : Metronome
}.

(** What the module sends to its collaborators: the audio service, the
    metronome and the worker. *)
Inductive Command :=
| NoteOn (event : ev_id) (instr : Z) (time : float)
| NoteOff (event : ev_id) (time : float)
| MetronomePlay (subdivision currentStep stepPrecision : Z) (time : float)
| WorkerStart (interval : float)
| WorkerStop.

(** Everything a call can read or change. *)
Record World := mkWorld {
  sequencer      : SequencerState;
  events         : ev_id -> AudioEvent;   (* the event objects *)
  emitted        : list Command;          (* oldest first *)
  audioContext   : option float;          (* its currentTime, when there is one *)
  audioRecording : bool                   (* AudioService.isRecording() *)
}.

(** *** Field updates *)

Definition set_playing (v : bool) (s : SequencerState) : SequencerState :=
  mkState v (looping s) (recording s) (scheduleAheadTime s) (stepPrecision s)
    (beatAmount s) (channelQueue s) (activePattern s) (measureStartTime s)
    (firstMeasureStartTime s) (currentStep s) (nextNoteTime s) (channels s)
    (metronome s).

Definition set_looping (v : bool) (s : SequencerState) : SequencerState :=
  mkState (playing s) v (recording s) (scheduleAheadTime s) (stepPrecision s)
    (beatAmount s) (channelQueue s) (activePattern s) (measureStartTime s)
    (firstMeasureStartTime s) (currentStep s) (nextNoteTime s) (channels s)
    (metronome s).

Definition set_recording (v : bool) (s : SequencerState) : SequencerState :=
  mkState (playing s) (looping s) v (scheduleAheadTime s) (stepPrecision s)
    (beatAmount s) (channelQueue s) (activePattern s) (measureStartTime s)
    (firstMeasureStartTime s) (currentStep s) (nextNoteTime s) (channels s)
    (metronome s).

Definition set_channelQueue (v : list LinkedList) (s : SequencerState)
  : SequencerState :=
  mkState (playing s) (looping s) (recording s) (scheduleAheadTime s)
    (stepPrecision s) (beatAmount s) v (activePattern s) (measureStartTime s)
    (firstMeasureStartTime s) (currentStep s) (nextNoteTime s) (channels s)
    (metronome s).

Definition set_activePattern (v : Z) (s : SequencerState) : SequencerState :=
  mkState (playing s) (looping s) (recording s) (scheduleAheadTime s)
    (stepPrecision s) (beatAmount s) (channelQueue s) v (measureStartTime s)
    (firstMeasureStartTime s) (currentStep s) (nextNoteTime s) (channels s)
    (metronome s).

Definition set_measureStartTime (v : float) (s : SequencerState)
  : SequencerState :=
  mkState (playing s) (looping s) (recording s) (scheduleAheadTime s)
    (stepPrecision s) (beatAmount s) (channelQueue s) (activePattern s) v
    (firstMeasureStartTime s) (currentStep s) (nextNoteTime s) (channels s)
    (metronome s).

Definition set_firstMeasureStartTime (v : float) (s : SequencerState)
  : SequencerState :=
  mkState (playing s) (looping s) (recording s) (scheduleAheadTime s)
    (stepPrecision s) (beatAmount s) (channelQueue s) (activePattern s)
    (measureStartTime s) v (currentStep s) (nextNoteTime s) (channels s)
    (metronome s).

Definition set_currentStep (v : Z) (s : SequencerState) : SequencerState :=
  mkState (playing s) (looping s) (recording s) (scheduleAheadTime s)
    (stepPrecision s) (beatAmount s) (channelQueue s) (activePattern s)
    (measureStartTime s) (firstMeasureStartTime s) v (nextNoteTime s)
    (channels s) (metronome s).

Definition set_nextNoteTime (v : float) (s : SequencerState) : SequencerState :=
  mkState (playing s) (looping s) (recording s) (scheduleAheadTime s)
    (stepPrecision s) (beatAmount s) (channelQueue s) (activePattern s)
    (measureStartTime s) (firstMeasureStartTime s) (currentStep s) v
    (channels s) (metronome s).

Definition set_channels (v : ChannelsRef) (s : SequencerState)
  : SequencerState :=
  mkState (playing s) (looping s) (recording s) (scheduleAheadTime s)
    (stepPrecision s) (beatAmount s) (channelQueue s) (activePattern s)
    (measureStartTime s) (firstMeasureStartTime s) (currentStep s)
    (nextNoteTime s) v (metronome s).

Definition set_metronome (v : Metronome) (s : SequencerState)
  : SequencerState :=
  mkState (playing s) (looping s) (recording s) (scheduleAheadTime s)
    (stepPrecision s) (beatAmount s) (channelQueue s) (activePattern s)
    (measureStartTime s) (firstMeasureStartTime s) (currentStep s)
    (nextNoteTime s) (channels s) v.

Definition set_seqPlaying (v : bool) (e : AudioEvent) : AudioEvent :=
  mkEvent (action e) (instrument e) (evRecording e)
    (mkSeq (startMeasure (seq e)) (startMeasureOffset (seq e))
       (seqLength (seq e)) (mpLength (seq e)) v).

Definition set_mpLength (v : float) (e : AudioEvent) : AudioEvent :=
  mkEvent (action e) (instrument e) (evRecording e)
    (mkSeq (startMeasure (seq e)) (startMeasureOffset (seq e))
       (seqLength (seq e)) v (seqPlaying (seq e))).

(** The store with the object [id] replaced. *)
Definition store_put (id : ev_id) (e : AudioEvent)
  (h : ev_id -> AudioEvent) : ev_id -> AudioEvent :=
  fun j => if Nat.eqb j id then e else h j.

Arguments store_put : simpl never.

Definition with_sequencer (s : SequencerState) (w : World) : World :=
  mkWorld s (events w) (emitted w) (audioContext w) (audioRecording w).

Definition with_events (h : ev_id -> AudioEvent) (w : World) : World :=
  mkWorld (sequencer w) h (emitted w) (audioContext w) (audioRecording w).

Definition with_emitted (l : list Command) (w : World) : World :=
  mkWorld (sequencer w) (events w) l (audioContext w) (audioRecording w).

(** *** Arrays *)

(** [a[i]] for an integer [i]: [undefined] (here [None]) outside the array. *)
Definition js_index {A : Type} (a : list A) (i : Z) : option A :=
  if i <? 0 then None else nth_error a (Z.to_nat i).

(** The list with position [i] replaced, unchanged when [i] is outside. *)
Fixpoint list_set {A : Type} (l : list A) (i : nat) (v : A) : list A :=
  match l, i with
  | [], _ => []
  | _ :: t, O => v :: t
  | x :: t, S k => x :: list_set t k v
  end.

(** ** Effects

    A call runs on a [World].  It ends normally with a value, or throws (a
    [TypeError] on reading a property of [undefined]) and leaves the world
    as its last assignment left it.  The scheduling loop of [collect] is
    bounded by fuel, and [OutOfFuel] says that the bound was reached. *)

Inductive Result (A : Type) :=
| Ok (a : A) (w : World)
| Throws (w : World)
| OutOfFuel.

Arguments Ok {A} a w.
Arguments Throws {A} w.
Arguments OutOfFuel {A}.

Definition M (A : Type) := World -> Result A.

Definition ret {A : Type} (a : A) : M A := fun w => Ok a w.

Definition bind {A B : Type} (m : M A) (k : A -> M B) : M B :=
  fun w =>
    match m w with
    | Ok a w' => k a w'
    | Throws w' => Throws w'
    | OutOfFuel => OutOfFuel
    end.

Notation "x <- m ;; k" := (bind m (fun x => k))
  (at level 61, m at next level, right associativity).
Notation "m ;; k" := (bind m (fun _ => k))
  (at level 61, right associativity).

Definition throw {A : Type} : M A := fun w => Throws w.

(** [store.state.sequencer], read now. *)
Definition state : M SequencerState := fun w => Ok (sequencer w) w.

Definition modify (f : SequencerState -> SequencerState) : M unit :=
  fun w => Ok tt (with_sequencer (f (sequencer w)) w).

Definition emit (c : Command) : M unit :=
  fun w => Ok tt (with_emitted (emitted w ++ [c]) w).

Definition get_event (id : ev_id) : M AudioEvent :=
  fun w => Ok (events w id) w.

Definition update_event (id : ev_id) (f : AudioEvent -> AudioEvent) : M unit :=
  fun w => Ok tt (with_events (store_put id (f (events w id)) (events w)) w).

Fixpoint forEach {A : Type} (l : list A) (f : A -> M unit) : M unit :=
  match l with
  | [] => ret tt
  | x :: t => f x ;; forEach t f
  end.

(** *** The queues *)

(** [channelQueue[ch]], whose use throws when there is no such queue. *)
Definition queue_of (ch : nat) : M LinkedList :=
  fun w =>
    match nth_error (channelQueue (sequencer w)) ch with
    | Some q => Ok q w
    | None => Throws w
    end.

Definition set_queue (ch : nat) (q : LinkedList) : M unit :=
  modify (fun s => set_channelQueue (list_set (channelQueue s) ch q) s).

(** [queue.add(event)] *)
Definition queue_add (ch : nat) (event : ev_id) : M unit :=
  q <- queue_of ch ;; set_queue ch (q ++ [event]).

(** ** Internal methods *)

(** [dequeueEvent(event, time)]: the note off is sent; [seq.playing] is left
    as it is (the timer that would unset it is commented out). *)
Definition dequeueEvent (event : ev_id) (time : float) : M unit :=
  emit (NoteOff event time).

(** The loop of [enqueueEvent] over [queue.head], on a queue holding [q]. *)
Fixpoint killPlaying (ch : nat) (q : LinkedList) (time : float) : M unit :=
  match q with
  | [] => ret tt
  | playingNote :: rest =>
      dequeueEvent playingNote time ;;
      set_queue ch rest ;;
      killPlaying ch rest time
  end.

Definition enqueueEvent (activeSong : Song) (event : ev_id)
  (eventChannel : nat) : M unit :=
  st <- state ;;
  update_event event (set_seqPlaying true) ;;
  let patternDuration := ((60 / tempo activeSong) * Z2F (beatAmount st))%float in
  let eventPattern := js_index (patterns activeSong) (activePattern st) in
  update_event event
    (set_mpLength
       match eventPattern with
       | Some p => (patternDuration / Z2F (Z.of_nat (steps p)))%float
       | None => 0%float
       end) ;;
  e <- get_event event ;;
  emit (NoteOn event (instrument e) (nextNoteTime st)) ;;
  let isNoteOn := action e =? 1 in
  (if negb (action e =? 0)
   then q <- queue_of eventChannel ;; killPlaying eventChannel q (nextNoteTime st)
   else ret tt) ;;
  if isNoteOn
  then queue_add eventChannel event
  else dequeueEvent event (nextNoteTime st + mpLength (seq e))%float.

(** ** Mutations *)

Definition setPlaying (isPlaying : bool) : M unit :=
  modify (set_playing isPlaying) ;;
  if isPlaying then
    st <- state ;;
    (if recording st && countIn (metronome st)
     then modify (set_metronome
                    (mkMetronome true (countIn (metronome st)) false
                       (restore (metronome st))))
     else ret tt) ;;
    modify (set_currentStep 0) ;;
    emit (WorkerStart ((scheduleAheadTime st * 1000) / 4)%float)
  else
    emit WorkerStop ;;
    modify (fun s => set_channelQueue (map (fun _ => []) (channelQueue s)) s).

Definition setLooping (isLooping : bool) : M unit :=
  modify (set_looping isLooping).

Definition setRecording (isRecording : bool) : M unit :=
  modify (set_recording isRecording).

Definition setActivePattern (value : Z) : M unit :=
  modify (set_activePattern value).

Definition gotoPreviousPattern : M unit :=
  st <- state ;;
  if activePattern st >? 0
  then modify (set_activePattern (activePattern st - 1))
  else ret tt.

Definition gotoNextPattern (activeSong : Song) : M unit :=
  st <- state ;;
  let max := Z.of_nat (length (patterns activeSong)) - 1 in
  if activePattern st <? max
  then modify (set_activePattern (activePattern st + 1))
  else ret tt.

Definition setCurrentStep (step : Z) : M unit :=
  modify (set_currentStep step).

Definition setMetronomeEnabled (isEnabled : bool) : M unit :=
  modify (fun s =>
    set_metronome
      (mkMetronome isEnabled (countIn (metronome s))
         (countInComplete (metronome s)) (restore (metronome s))) s).

(** The loop of [setPosition] over [list.head], on a queue holding [q]. *)
Fixpoint stopPlaying (ch : nat) (q : LinkedList) (time : float) : M unit :=
  match q with
  | [] => ret tt
  | playingNote :: rest =>
      dequeueEvent playingNote time ;;
      update_event playingNote (set_seqPlaying false) ;;
      set_queue ch rest ;;
      stopPlaying ch rest time
  end.

(** [state.channelQueue.forEach(list => ...)] from index [ch] on. *)
Fixpoint stopQueues (ch : nat) (n : nat) (time : float) : M unit :=
  match n with
  | O => ret tt
  | S k =>
      q <- queue_of ch ;;
      stopPlaying ch q time ;;
      stopQueues (S ch) k time
  end.

(** [setPosition(state, { activeSong, pattern, currentTime })]; a
    [currentTime] that is not a number is [None]. *)
Definition setPosition (activeSong : Song) (pattern : Z)
  (currentTime : option float) : M unit :=
  let len := Z.of_nat (length (patterns activeSong)) in
  let pattern := if pattern >=? len then len - 1 else pattern in
  st <- state ;;
  (if negb (activePattern st =? pattern)
   then modify (set_currentStep 0) else ret tt) ;;
  ctx <- (fun w => Ok (audioContext w) w) ;;
  let currentTime :=
    match currentTime with
    | Some t => t
    | None => match ctx with Some t => t | None => 0%float end
    end in
  modify (set_activePattern pattern) ;;
  modify (set_nextNoteTime currentTime) ;;
  modify (set_measureStartTime currentTime) ;;
  st <- state ;;
  modify (set_firstMeasureStartTime
            (currentTime -
             Z2F pattern * (60 / tempo activeSong * Z2F (beatAmount st)))%float) ;;
  match js_index (patterns activeSong) pattern with
  | None => throw
  | Some _ =>
      modify (set_channels (ChannelsOf (Z.to_nat pattern))) ;;
      st <- state ;;
      if activePattern st =? 0
      then stopQueues 0 (length (channelQueue st)) currentTime
      else ret tt
  end.

(** ** The scheduler *)

(** The choice of the next pattern at the end of a measure.  The result
    [true] stands for the [return] that leaves [step] when the last measure
    ends while the output is recorded and the sequencer does not loop. *)
Definition nextMeasure (activeSong : Song) : M bool :=
  let maxMeasure := Z.of_nat (length (patterns activeSong)) - 1 in
  st <- state ;;
  let nextPattern := activePattern st + 1 in
  if nextPattern >? maxMeasure then
    setActivePattern 0 ;;
    isRecording <- (fun w => Ok (audioRecording w) w) ;;
    st <- state ;;
    if isRecording && negb (looping st)
    then setPlaying false ;; ret true
    else ret false
  else
    if negb (looping st)
    then gotoNextPattern activeSong ;; ret false
    else ret false.

(** The end of the one bar count in of a recording. *)
Definition endCountIn : M unit :=
  st <- state ;;
  if recording st then
    if countIn (metronome st) && negb (countInComplete (metronome st))
    then
      modify (set_metronome
                (mkMetronome (restore (metronome st)) (countIn (metronome st))
                   true (restore (metronome st)))) ;;
      ctx <- (fun w => Ok (audioContext w) w) ;;
      match ctx with
      | None => throw
      | Some now =>
          modify (set_firstMeasureStartTime now) ;;
          setActivePattern 0
      end
    else ret tt
  else ret tt.

(** [step(store)]: one subdivision further; at the end of the measure the
    pattern is advanced and the position committed. *)
Definition step (activeSong : Song) : M unit :=
  modify (fun s =>
    set_nextNoteTime
      (nextNoteTime s + ((60 / tempo activeSong) * 4) / Z2F (stepPrecision s))%float
      s) ;;
  st <- state ;;
  let currentStep := currentStep st + 1 in
  setCurrentStep currentStep ;;
  st <- state ;;
  if currentStep =? stepPrecision st then
    setCurrentStep 0 ;;
    returned <- nextMeasure activeSong ;;
    if (returned : bool) then ret tt else
    st <- state ;;
    setPosition activeSong (activePattern st) (Some (nextNoteTime st)) ;;
    endCountIn ;;
    st <- state ;;
    setActivePattern (activePattern st)
  else ret tt.

(** [n] calls of [step] in a row. *)
Fixpoint stepTimes (n : nat) (activeSong : Song) : M unit :=
  match n with
  | O => ret tt
  | S n' => step activeSong ;; stepTimes n' activeSong
  end.

(** The arrays [state.channels] refers to. *)
Definition channels_of (activeSong : Song) (r : ChannelsRef) : list Channel :=
  match r with
  | NoChannels => []
  | ChannelsOf p =>
      match nth_error (patterns activeSong) p with
      | Some pat => patChannels pat
      | None => []
      end
  end.

(** The trigger range test of [collect]. *)
Definition in_range (compareTime : float) (s : Seq) : bool :=
  geb compareTime (startMeasureOffset s)
  && PrimFloat.ltb compareTime (startMeasureOffset s + seqLength s)%float.

(** The body of the innermost loop of [collect], for [channel[channelStep]]
    of channel [i]. *)
Definition visit (activeSong : Song) (compareTime : float) (i : nat)
  (slot : Slot) : M unit :=
  match slot with
  | SEvent event =>
      e <- get_event event ;;
      st <- state ;;
      if evRecording e || negb (startMeasure (seq e) =? activePattern st)
      then ret tt
      else if in_range compareTime (seq e)
      then if negb (seqPlaying (seq e))
           then enqueueEvent activeSong event i
           else ret tt
      else update_event event (set_seqPlaying false)
  | _ => ret tt
  end.

(** [while ( channelStep-- )]: the slots of a channel, last first. *)
Definition scanChannel (activeSong : Song) (compareTime : float) (i : nat)
  (channel : Channel) : M unit :=
  forEach (rev channel) (visit activeSong compareTime i).

(** The channels with their indices. *)
Definition indexed {A : Type} (l : list A) : list (nat * A) :=
  combine (List.seq 0%nat (length l)) l.

(** [while ( i-- )]: the channels, last first. *)
Definition scanChannels (activeSong : Song) (compareTime : float)
  (chs : list Channel) : M unit :=
  forEach (rev (indexed chs))
    (fun ic => scanChannel activeSong compareTime (fst ic) (snd ic)).

(** The [if ( sequenceEvents )] block of one turn of the loop of [collect]. *)
Definition sequence (activeSong : Song) : M unit :=
  st <- state ;;
  let compareTime := (nextNoteTime st - measureStartTime st)%float in
  scanChannels activeSong compareTime (channels_of activeSong (channels st)).

(** One turn of the loop of [collect]. *)
Definition collectTurn (activeSong : Song) (sequenceEvents : bool) : M unit :=
  (if sequenceEvents then sequence activeSong else ret tt) ;;
  st <- state ;;
  (if enabled (metronome st)
   then emit (MetronomePlay 2 (currentStep st) (stepPrecision st)
                (nextNoteTime st))
   else ret tt) ;;
  step activeSong.

Fixpoint collectLoop (fuel : nat) (activeSong : Song) (sequenceEvents : bool)
  : M unit :=
  fun w =>
    match audioContext w with
    | None => Throws w
    | Some now =>
        if PrimFloat.ltb (nextNoteTime (sequencer w))
             (now + scheduleAheadTime (sequencer w))%float
        then match fuel with
             | O => OutOfFuel
             | S fuel' =>
                 (collectTurn activeSong sequenceEvents ;;
                  collectLoop fuel' activeSong sequenceEvents) w
             end
        else Ok tt w
    end.

(** [collect(store)], with a bound on the turns of its loop. *)
Definition collect (fuel : nat) (activeSong : Song) : M unit :=
  st <- state ;;
  let sequenceEvents :=
    negb (recording st && countIn (metronome st)
          && negb (countInComplete (metronome st))) in
  collectLoop fuel activeSong sequenceEvents.

(** [state.worker.onmessage] for a [collect] message: a tick is ignored
    unless the sequencer is playing. *)
Definition onmessage (fuel : nat) (activeSong : Song) : M unit :=
  st <- state ;;
  if playing st then collect fuel activeSong else ret tt.

(** ** What a call leaves behind *)

(** [seq.mpLength] as [enqueueEvent] computes it. *)
Definition mpLengthOf (activeSong : Song) (st : SequencerState) : float :=
  match js_index (patterns activeSong) (activePattern st) with
  | Some eventPattern =>
      (((60 / tempo activeSong) * Z2F (beatAmount st))
       / Z2F (Z.of_nat (steps eventPattern)))%float
  | None => 0%float
  end.

(** The event [enqueueEvent] leaves in the store. *)
Definition enqueued (activeSong : Song) (st : SequencerState)
  (e : AudioEvent) : AudioEvent :=
  set_mpLength (mpLengthOf activeSong st) (set_seqPlaying true e).

(** The worlds that differ from [w] in the queues, the log and the store
    only. *)
Record reaches (w w' : World) (cq : list LinkedList) (log : list Command)
  : Prop := mkReaches {
  reaches_sequencer : sequencer w' = set_channelQueue cq (sequencer w);
  reaches_emitted   : emitted w' = emitted w ++ log;
  reaches_context   : audioContext w' = audioContext w;
  reaches_recording : audioRecording w' = audioRecording w
}.


(** ** Resizing a pattern

    [setPatternSteps] computes array indices with [/] and [+=] on numbers.
    Step counts are natural numbers; the increment and the running index [j]
    are kept as exact rationals.  Double arithmetic is exact and agrees with
    this where the quotient of the two step counts is an integer (one count
    is a multiple of the other) or a binary fraction such as 1.5, and where
    the loop does not run; the statements on the contents of a resized
    channel are confined to these.  A quotient that no double holds exactly
    is idealised: from 12 steps to 16 the doubles of the source round the
    running index, the rationals do not, and the contents the model gives
    are not those of the code. *)

(** The array index a number denotes, if it is a non-negative integer. *)
Definition index_of (j : Q) : option nat :=
  if (Qnum j <? 0)%Z then None
  else if (Qnum j mod Zpos (Qden j) =? 0)%Z
       then Some (Z.to_nat (Qnum j / Zpos (Qden j)))
       else None.

(** [channel[j]]: [undefined] when [j] is no index of the array. *)
Definition js_get (channel : Channel) (j : Q) : Slot :=
  match index_of j with
  | Some n => nth n channel SUndefined
  | None => SUndefined
  end.

(** [transformed[j] = v]: an element is replaced; past the end the array
    grows, the gap reading [undefined]; a [j] that is no index names a
    property of the object, which is no element. *)
Definition js_put (transformed : Channel) (j : Q) (v : Slot) : Channel :=
  match index_of j with
  | Some n =>
      if (n <? length transformed)%nat
      then list_set transformed n v
      else transformed ++ repeat SUndefined (n - length transformed) ++ [v]
  | None => transformed
  end.

(** [for ( i = 0, j = 0; i < steps; ++i, j += increment )
       transformed[ i ] = channel[ j ];] with [n] turns left. *)
Fixpoint reduce (n : nat) (i : nat) (j increment : Q) (channel : Channel)
  (transformed : Channel) : Channel :=
  match n with
  | O => transformed
  | S n' =>
      reduce n' (S i) (j + increment)%Q increment channel
        (js_put transformed (inject_Z (Z.of_nat i)) (js_get channel j))
  end.

(** [for ( i = 0, j = 0; i < oldAmount; ++i, j += increment )
       transformed[ j ] = channel[ i ];] with [n] turns left. *)
Fixpoint increase (n : nat) (i : nat) (j increment : Q) (channel : Channel)
  (transformed : Channel) : Channel :=
  match n with
  | O => transformed
  | S n' =>
      increase n' (S i) (j + increment)%Q increment channel
        (js_put transformed j (js_get channel (inject_Z (Z.of_nat i))))
  end.

(** The body of the [forEach] of [setPatternSteps] for one channel. *)
Definition transform (oldAmount steps : nat) (channel : Channel) : Channel :=
  let transformed := repeat SZero steps in
  if (steps <? oldAmount)%nat
  then
    let increment := (inject_Z (Z.of_nat oldAmount) / inject_Z (Z.of_nat steps))%Q in
    reduce steps 0 0%Q increment channel transformed
  else
    let increment := (inject_Z (Z.of_nat steps) / inject_Z (Z.of_nat oldAmount))%Q in
    increase oldAmount 0 0%Q increment channel transformed.

(** [setPatternSteps(state, { pattern, steps })]: every channel is replaced;
    [pattern.steps] is written in the loop, once per channel. *)
Definition setPatternSteps (pattern : Pattern) (newSteps : nat) : Pattern :=
  let oldAmount := steps pattern in
  mkPattern
    (match patChannels pattern with [] => oldAmount | _ => newSteps end)
    (map (transform oldAmount newSteps) (patChannels pattern)).

(** The state [setPosition] leaves for a pattern [pattern] that exists and a
    time [currentTime], the queues apart. *)
Definition positioned (activeSong : Song) (pattern : Z) (currentTime : float)
  (s : SequencerState) : SequencerState :=
  mkState (playing s) (looping s) (recording s) (scheduleAheadTime s)
    (stepPrecision s) (beatAmount s) (channelQueue s) pattern currentTime
    (currentTime
     - Z2F pattern * (60 / tempo activeSong * Z2F (beatAmount s)))%float
    (if activePattern s =? pattern then currentStep s else 0)
    currentTime (ChannelsOf (Z.to_nat pattern)) (metronome s).

(** The note offs that stop every event of the queues [cq] at [time]. *)
Definition noteOffs (cq : list LinkedList) (time : float) : list Command :=
  flat_map (fun q => map (fun playingNote => NoteOff playingNote time) q) cq.

(** The pattern [setPosition] settles on: the argument, or the last pattern
    when the argument is at or beyond the number of patterns. *)
Definition targetPattern (activeSong : Song) (pattern : Z) : Z :=
  let len := Z.of_nat (length (patterns activeSong)) in
  if pattern >=? len then len - 1 else pattern.

(** The time [setPosition] settles on. *)
Definition targetTime (currentTime : option float) (w : World) : float :=
  match currentTime with
  | Some t => t
  | None => match audioContext w with Some t => t | None => 0%float end
  end.

(** The time [step] moves [nextNoteTime] to. *)
Definition nextTime (activeSong : Song) (s : SequencerState) : float :=
  (nextNoteTime s + ((60 / tempo activeSong) * 4) / Z2F (stepPrecision s))%float.

(** The pattern [step] commits the position at when a measure ends. *)
Definition reachedPattern (activeSong : Song) (s : SequencerState) : Z :=
  let maxMeasure := Z.of_nat (length (patterns activeSong)) - 1 in
  if activePattern s + 1 >? maxMeasure then 0
  else if looping s then activePattern s
  else activePattern s + 1.

(** Whether [step], at the end of a measure, stops the sequencer and
    returns. *)
Definition stopsRecording (activeSong : Song) (w : World) : bool :=
  let maxMeasure := Z.of_nat (length (patterns activeSong)) - 1 in
  (activePattern (sequencer w) + 1 >? maxMeasure)
  && audioRecording w && negb (looping (sequencer w)).

(** Whether the count in of a recording is under way. *)
Definition countingIn (s : SequencerState) : bool :=
  recording s && countIn (metronome s) && negb (countInComplete (metronome s)).

(** The state [step] leaves at the end of a measure when it commits the
    position at pattern [p], the queues apart; [now] is the time of the audio
    context. *)
Definition afterMeasure (activeSong : Song) (p : Z) (now : float)
  (s : SequencerState) : SequencerState :=
  let t := nextTime activeSong s in
  mkState (playing s) (looping s) (recording s) (scheduleAheadTime s)
    (stepPrecision s) (beatAmount s) (channelQueue s)
    (if countingIn s then 0 else p)
    t
    (if countingIn s then now
     else (t - Z2F p * (60 / tempo activeSong * Z2F (beatAmount s)))%float)
    0 t (ChannelsOf (Z.to_nat p))
    (if countingIn s
     then mkMetronome (restore (metronome s)) (countIn (metronome s)) true
            (restore (metronome s))
     else metronome s).

(** The time of the audio context, 0 without one. *)
Definition contextTime (w : World) : float :=
  match audioContext w with Some now => now | None => 0%float end.

(** *** A pass of [collect] over the channels *)

(** The events [collect] looks at: those that are not being recorded and
    belong to the active pattern. *)
Definition eligible (w : World) (id : ev_id) : bool :=
  negb (evRecording (events w id)
        || negb (startMeasure (seq (events w id))
                 =? activePattern (sequencer w))).

(** Two states of an event that differ in [seq.playing] and [seq.mpLength]
    only. *)
Definition same_data (e e' : AudioEvent) : Prop :=
  action e' = action e
  /\ instrument e' = instrument e
  /\ evRecording e' = evRecording e
  /\ startMeasure (seq e') = startMeasure (seq e)
  /\ startMeasureOffset (seq e') = startMeasureOffset (seq e)
  /\ seqLength (seq e') = seqLength (seq e).

(** Whether a slot holds the event [id]. *)
Definition holds (slot : Slot) (id : ev_id) : bool :=
  match slot with
  | SEvent e => Nat.eqb e id
  | _ => false
  end.

(** What a pass at [compareTime] over the events selected by [visited] makes
    of [w]: the queues keep their number, the events their data, an eligible
    event that was visited is playing exactly when the time is in its range,
    and every other event is as it was. *)
Definition passed (compareTime : float) (visited : ev_id -> bool)
  (w w' : World) : Prop :=
  (exists cq log,
     reaches w w' cq log
     /\ length cq = length (channelQueue (sequencer w)))
  /\ (forall id, same_data (events w id) (events w' id))
  /\ (forall id, visited id = true -> eligible w id = true ->
        seqPlaying (seq (events w' id))
        = in_range compareTime (seq (events w id)))
  /\ (forall id, visited id = false \/ eligible w id = false ->
        events w' id = events w id).

(** Whether a channel of [chs] holds the event [id]. *)
Definition scanned (chs : list Channel) (id : ev_id) : bool :=
  existsb (fun ic => existsb (fun slot => holds slot id) (rev (snd ic)))
    (rev (indexed chs)).

(** ** Sample songs and worlds *)

(** A note on of pattern 0. *)
Definition noteAt (offset len : float) (isPlaying : bool) : AudioEvent :=
  mkEvent 1 0 false (mkSeq 0 offset len 0 isPlaying).

(** A module parameter change of pattern 0. *)
Definition paramAt (offset len : float) : AudioEvent :=
  mkEvent 0 0 false (mkSeq 0 offset len 0 false).

Definition metronomeOff : Metronome := mkMetronome false false false false.

(** A playing sequencer with one queue, at 4 beats, bound to pattern 0. *)
Definition transport (precision : Z) (queue : LinkedList) (step : Z)
  (time : float) : SequencerState :=
  mkState true false false 0.2 precision 4 [queue] 0 0 0 step time
    (ChannelsOf 0) metronomeOff.

(** One pattern of 16 steps, one channel: event 0 at step 0, event 1 at
    step 4. *)
Definition twoNotes : Channel :=
  [SEvent 0; SZero; SZero; SZero; SEvent 1; SZero; SZero; SZero;
   SZero; SZero; SZero; SZero; SZero; SZero; SZero; SZero].

Definition song120 : Song := mkSong 120 [mkPattern 16 [twoNotes]].

(** At 120 BPM a step of 16 lasts 0.125 s: the notes of steps 0 and 4, one
    step long each. *)
Definition shortNotes (isPlaying : bool) : ev_id -> AudioEvent :=
  fun id =>
    match id with
    | O => noteAt 0 0.125 isPlaying
    | _ => noteAt 0.5 0.125 false
    end.

(** The same with the first note held for eight steps. *)
Definition heldNote : ev_id -> AudioEvent :=
  fun id =>
    match id with
    | O => noteAt 0 1 false
    | _ => noteAt 0.5 0.125 false
    end.

(** Event 0 is sounding and queued, the sequencer has reached step 4. *)
Definition atStep4 : World :=
  mkWorld (transport 16 [0%nat] 4 0.5) (shortNotes true) [] (Some 0.4%float)
    false.

(** The start of the song, the audio clock at 0.4 s. *)
Definition atStart (h : ev_id -> AudioEvent) : World :=
  mkWorld (transport 16 [] 0 0) h [] (Some 0.4%float) false.

(** A song at 75 BPM: a step of 16 lasts 0.2 s.  Its one channel holds a
    module parameter change at step 2. *)
Definition song75 : Song :=
  mkSong 75 [mkPattern 16 [[SZero; SZero; SEvent 0]]].

Definition atStart75 : World :=
  mkWorld (transport 16 [] 0 0) (fun _ => paramAt 0.4 0.2) []
    (Some 0.3%float) false.

(** The rational a finite double is. *)
Definition F2Q (f : float) : Q :=
  match Prim2SF f with
  | S754_finite s m e =>
      (inject_Z (if s then Z.neg m else Z.pos m) * Qpower 2 e)%Q
  | _ => 0%Q
  end.

(** Two patterns of 16 steps with a note on their first step each: event 0
    in pattern 0, event 1 in pattern 1. *)
Definition song2 : Song :=
  mkSong 120 [mkPattern 16 [[SEvent 0]]; mkPattern 16 [[SEvent 1]]].

Definition firstNotes : ev_id -> AudioEvent :=
  fun id =>
    match id with
    | O => noteAt 0 0.125 false
    | _ => mkEvent 1 0 false (mkSeq 1 0 0.125 0 false)
    end.

(** The last step of pattern [pattern] of [song2], with the count in of a
    recording under way or not, looping or not. *)
Definition lastStep (pattern : Z) (isLooping isCountingIn : bool) : World :=
  mkWorld
    (mkState true isLooping isCountingIn 0.2 16 4 [[]] pattern 0 0 15 1.875
       (ChannelsOf (Z.to_nat pattern))
       (mkMetronome true isCountingIn false false))
    firstNotes [] (Some 1.7%float) false.

(** ** What every call keeps *)

(** A queue that holds one event at most. *)
Definition short (q : LinkedList) : Prop := (length q <= 1)%nat.

(** [post] holds of the world a call leaves, whether it returns or throws. *)
Definition after {A : Type} (r : Result A) (post : World -> Prop) : Prop :=
  match r with
  | Ok _ w' => post w'
  | Throws w' => post w'
  | OutOfFuel => True
  end.

(** What [w'] keeps of [w]: the number of queues, queues of one event at
    most, the data of every event but [seq.playing] and [seq.mpLength], the
    commands sent so far, to which only [allowed] ones are added, and the
    audio service. *)
Record steady (allowed : Command -> Prop) (w w' : World) : Prop := mkSteady {
  steady_queues :
    length (channelQueue (sequencer w')) = length (channelQueue (sequencer w));
  steady_short :
    Forall short (channelQueue (sequencer w)) ->
    Forall short (channelQueue (sequencer w'));
  steady_data : forall id, same_data (events w id) (events w' id);
  steady_log :
    exists l, emitted w' = emitted w ++ l /\ Forall allowed l;
  steady_context : audioContext w' = audioContext w;
  steady_recording : audioRecording w' = audioRecording w
}.

(** A call that is steady however it ends. *)
Definition calm {A : Type} (allowed : Command -> Prop) (m : M A) : Prop :=
  forall w, after (m w) (steady allowed w).

(** The commands that start no note. *)
Definition startsNoNote (c : Command) : Prop :=
  match c with
  | NoteOn _ _ _ => False
  | _ => True
  end.

(** Two worlds with the same state, log and audio service whose stores hold
    the same events. *)
Record unchanged (w w' : World) : Prop := mkUnchanged {
  unchanged_sequencer : sequencer w' = sequencer w;
  unchanged_emitted   : emitted w' = emitted w;
  unchanged_events    : forall id, events w' id = events w id;
  unchanged_context   : audioContext w' = audioContext w;
  unchanged_recording : audioRecording w' = audioRecording w
}.

(** Every eligible event of the channels [chs] is playing exactly when
    [compareTime] is within its range. *)
Definition settled (compareTime : float) (chs : list Channel) (w : World)
  : Prop :=
  forall id, scanned chs id = true -> eligible w id = true ->
    seqPlaying (seq (events w id)) = in_range compareTime (seq (events w id)).

(** ** Getters *)

(** [amountOfSteps(state, rootState)]: the steps of the active pattern; it
    throws when there is no such pattern. *)
Definition amountOfSteps (activeSong : Song) : M nat :=
  fun w =>
    match js_index (patterns activeSong) (activePattern (sequencer w)) with
    | Some pattern => Ok (steps pattern) w
    | None => Throws w
    end.

(** [position]: the active pattern and the current step. *)
Definition position : M (Z * Z) :=
  st <- state ;; ret (activePattern st, currentStep st).

(** * The module parameter panel

    The list functions and the key handler of the ModuleParamController.
    What they use of the view is modelled: of a list item, its [data-value]
    attribute and whether its class list holds [selected]; of the panel, the
    items of the module list, the selected module and the value of the value
    control. *)

Delimit Scope string_scope with string.
Bind Scope string_scope with String.string.

(** An [li] of the module list: [getAttribute( "data-value" )], [None] for
    the [null] of a missing attribute, and
    [classList.contains( "selected" )]. *)
Record ListItem := mkItem {
  dataValue : option String.string;
  selected  : bool
}.

(** [option.getAttribute( "data-value" ) === value] *)
Definition hasValue (value : String.string) (option : ListItem) : bool :=
  match dataValue option with
  | Some v => String.eqb v value
  | None => false
  end.

(** The [while ( i-- )] loop of [setSelectedValueInList]. *)
Fixpoint selectFrom (i : nat) (items : list ListItem) (value : String.string)
  : list ListItem :=
  match i with
  | O => items
  | S i' =>
      match nth_error items i' with
      | Some option =>
          selectFrom i'
            (list_set items i' (mkItem (dataValue option) (hasValue value option)))
            value
      | None => selectFrom i' items value
      end
  end.

(** [setSelectedValueInList( list, value )], for a [value] that is a
    string. *)
Definition setSelectedValueInList (items : list ListItem)
  (value : String.string) : list ListItem :=
  selectFrom (length items) items value.

(** The [while ( i-- )] loop of [getSelectedValueFromList]. *)
Fixpoint selectedFrom (i : nat) (items : list ListItem)
  : option String.string :=
  match i with
  | O => None
  | S i' =>
      match nth_error items i' with
      | Some option =>
          if selected option then dataValue option else selectedFrom i' items
      | None => selectedFrom i' items
      end
  end.

(** [getSelectedValueFromList( list )]; [None] is [null]. *)
Definition getSelectedValueFromList (items : list ListItem)
  : option String.string :=
  selectedFrom (length items) items.

Record Panel := mkPanel {
  moduleList     : list ListItem;
  selectedModule : String.string;
  valueControl   : Z                (* valueControl.value *)
}.

(** [handleKey( type, keyCode, event )] for the keys that select the module
    and the value.  Escape, enter and G hand over to [handleClose],
    [handleReady] and the [Form] utility, which are outside of this model:
    [None] stands for them.  For a digit key,
    [parseFloat( String.fromCharCode( keyCode ))] is [keyCode - 48]. *)
Definition handleKey (type : String.string) (keyCode : Z) (p : Panel)
  : option Panel :=
  if String.eqb type "down" then
    if (keyCode =? 27) || (keyCode =? 13) || (keyCode =? 71) then None
    else if keyCode =? 80 then
      let selectedModule :=
        if String.eqb (selectedModule p) "pitchUp"
        then "pitchDown"%string else "pitchUp"%string in
      Some (mkPanel (setSelectedValueInList (moduleList p) selectedModule)
              selectedModule (valueControl p))
    else if keyCode =? 86 then
      Some (mkPanel (setSelectedValueInList (moduleList p) "volume")
              "volume" (valueControl p))
    else if (48 <=? keyCode) && (keyCode <=? 57) then
      let num := keyCode - 48 in
      Some (mkPanel (moduleList p) (selectedModule p)
              (if num =? 0 then 100 else num * 10))
    else Some p
  else Some p.

(** The module list of the panel: the two pitch modules and the volume. *)
Definition modules : list ListItem :=
  [mkItem (Some "pitchUp"%string) true;
   mkItem (Some "pitchDown"%string) false;
   mkItem (Some "volume"%string) false].
(** * Properties *)

(** ** Lists and the store *)

Lemma list_set_length {A : Type} (l : list A) (i : nat) (v : A) :
  length (list_set l i v) = length l.
Proof.
  revert i; induction l as [|x t IH]; intros [|k]; cbn; auto.
Qed.

Lemma nth_error_list_set_eq {A : Type} (l : list A) (i : nat) (v : A) :
  (i < length l)%nat -> nth_error (list_set l i v) i = Some v.
Proof.
  revert i; induction l as [|x t IH]; intros [|k] H; cbn in *;
    try lia; auto.
  apply IH; lia.
Qed.

Lemma nth_error_list_set_ne {A : Type} (l : list A) (i j : nat) (v : A) :
  i <> j -> nth_error (list_set l i v) j = nth_error l j.
Proof.
  revert i j; induction l as [|x t IH]; intros [|i] [|j] H; cbn;
    try congruence; auto.
Qed.

Lemma list_set_twice {A : Type} (l : list A) (i : nat) (u v : A) :
  list_set (list_set l i u) i v = list_set l i v.
Proof.
  revert i; induction l as [|x t IH]; intros [|k]; cbn; auto.
  now rewrite IH.
Qed.

Lemma list_set_same {A : Type} (l : list A) (i : nat) (v : A) :
  nth_error l i = Some v -> list_set l i v = l.
Proof.
  revert i; induction l as [|x t IH]; intros [|k] H; cbn in *;
    try congruence.
  now rewrite IH.
Qed.

Lemma set_channelQueue_same (s : SequencerState) :
  set_channelQueue (channelQueue s) s = s.
Proof. now destruct s. Qed.

Lemma store_put_eq (id : ev_id) (e : AudioEvent) (h : ev_id -> AudioEvent) :
  store_put id e h id = e.
Proof. unfold store_put. now rewrite Nat.eqb_refl. Qed.

Lemma store_put_ne (id j : ev_id) (e : AudioEvent) (h : ev_id -> AudioEvent) :
  j <> id -> store_put id e h j = h j.
Proof.
  intro H. unfold store_put.
  destruct (Nat.eqb_spec j id); congruence.
Qed.

(** ** Running [enqueueEvent] *)

Lemma killPlaying_run (ch : nat) (time : float) (q : LinkedList) :
  forall w, exists w',
    killPlaying ch q time w = Ok tt w'
    /\ reaches w w'
         match q with
         | [] => channelQueue (sequencer w)
         | _ => list_set (channelQueue (sequencer w)) ch []
         end
         (map (fun playingNote => NoteOff playingNote time) q)
    /\ events w' = events w.
Proof.
  induction q as [|playingNote rest IH]; intro w.
  - exists w. cbn. split; [reflexivity|]. split; [|reflexivity].
    split; auto using app_nil_r. now rewrite set_channelQueue_same.
  - cbn [killPlaying].
    unfold bind at 1, dequeueEvent, emit.
    unfold bind at 1, set_queue, modify.
    match goal with |- context [killPlaying ch rest time ?w0] =>
      destruct (IH w0) as (w' & Hrun & [Hs He Hc Hr] & Hev) end.
    exists w'. split; [exact Hrun|]. split; [|exact Hev].
    cbn in Hs, He, Hc, Hr.
    split; auto.
    + rewrite Hs. destruct rest; cbn; [|rewrite list_set_twice]; reflexivity.
    + rewrite He, <- app_assoc. reflexivity.
Qed.

Lemma enqueueEvent_param (activeSong : Song) (event : ev_id) (ch : nat)
  (w : World) :
  action (events w event) = 0 ->
  exists w',
    enqueueEvent activeSong event ch w = Ok tt w'
    /\ reaches w w' (channelQueue (sequencer w))
         [NoteOn event (instrument (events w event)) (nextNoteTime (sequencer w));
          NoteOff event
            (nextNoteTime (sequencer w)
             + mpLengthOf activeSong (sequencer w))%float]
    /\ (forall j, events w' j =
          if Nat.eqb j event
          then enqueued activeSong (sequencer w) (events w event)
          else events w j).
Proof.
  intro Ha.
  unfold enqueueEvent, bind, state, update_event, get_event, emit,
    dequeueEvent, emit, ret; cbn.
  rewrite !store_put_eq; cbn. rewrite Ha; cbn.
  eexists; split; [reflexivity|]. split.
  - split; cbn; auto.
    + now rewrite set_channelQueue_same.
    + rewrite <- app_assoc. reflexivity.
  - intro j. cbn. unfold store_put.
    destruct (Nat.eqb j event); reflexivity.
Qed.

Lemma enqueueEvent_note (activeSong : Song) (event : ev_id) (ch : nat)
  (w : World) (q : LinkedList) :
  action (events w event) <> 0 ->
  nth_error (channelQueue (sequencer w)) ch = Some q ->
  exists w',
    enqueueEvent activeSong event ch w = Ok tt w'
    /\ reaches w w'
         (list_set (channelQueue (sequencer w)) ch
            (if action (events w event) =? 1 then [event] else []))
         (NoteOn event (instrument (events w event)) (nextNoteTime (sequencer w))
          :: map (fun playingNote =>
                    NoteOff playingNote (nextNoteTime (sequencer w))) q
          ++ (if action (events w event) =? 1 then []
              else [NoteOff event
                      (nextNoteTime (sequencer w)
                       + mpLengthOf activeSong (sequencer w))%float]))
    /\ (forall j, events w' j =
          if Nat.eqb j event
          then enqueued activeSong (sequencer w) (events w event)
          else events w j).
Proof.
  intros Ha Hq.
  assert (Hlen : (ch < length (channelQueue (sequencer w)))%nat)
    by (apply nth_error_Some; congruence).
  unfold enqueueEvent.
  unfold bind at 1, state.
  unfold bind at 1, update_event.
  unfold bind at 1, update_event.
  unfold bind at 1, get_event.
  unfold bind at 1, emit.
  cbn. rewrite !store_put_eq. cbn.
  destruct (Z.eqb_spec (action (events w event)) 0) as [E|_]; [contradiction|].
  cbn [negb].
  unfold bind at 1. unfold bind at 1, queue_of. cbn. rewrite Hq.
  match goal with |- context [killPlaying ch q ?t ?w0] =>
    destruct (killPlaying_run ch t q w0) as (w1 & Hrun & [Hs He Hc Hr] & Hev)
  end.
  rewrite Hrun. cbn in Hs, He, Hc, Hr, Hev.
  assert (Hs1 : sequencer w1
                = set_channelQueue (list_set (channelQueue (sequencer w)) ch [])
                    (sequencer w)).
  { rewrite Hs. destruct q; cbn; [|reflexivity].
    now rewrite (list_set_same _ _ _ Hq), set_channelQueue_same. }
  clear Hs.
  destruct (action (events w event) =? 1).
  - unfold queue_add, bind, queue_of, set_queue, modify.
    rewrite Hs1. cbn.
    rewrite nth_error_list_set_eq by exact Hlen. cbn.
    eexists; split; [reflexivity|]. split.
    + split; cbn; auto.
      * rewrite Hs1. cbn. now rewrite list_set_twice.
      * rewrite He, <- !app_assoc, app_nil_r. reflexivity.
    + intro j. cbn. rewrite Hev. unfold store_put.
      destruct (Nat.eqb j event); reflexivity.
  - unfold dequeueEvent, emit.
    eexists; split; [reflexivity|]. split.
    + split; cbn; auto.
      rewrite He, <- !app_assoc. reflexivity.
    + intro j. cbn. rewrite Hev. unfold store_put.
      destruct (Nat.eqb j event); reflexivity.
Qed.

(** ** Notes kill what their channel was playing *)

(** C2: an event that is no module parameter change (action 1, note on, or
    any other action but 0, note off), enqueued on a channel whose queue
    holds [q], first sends its own [noteOn] at [nextNoteTime], then one
    [noteOff] at that same time for every queued event, head first; a note on
    is then appended, so that the queue holds exactly that event, and the
    queue of any other event is left empty (such an event is sent its own
    [noteOff] last). *)
Theorem enqueueEvent_kills_queued (activeSong : Song) (event : ev_id)
  (ch : nat) (w : World) (q : LinkedList) :
  action (events w event) <> 0 ->
  nth_error (channelQueue (sequencer w)) ch = Some q ->
  exists w',
    enqueueEvent activeSong event ch w = Ok tt w'
    /\ emitted w' =
         emitted w
         ++ NoteOn event (instrument (events w event))
              (nextNoteTime (sequencer w))
            :: map (fun playingNote =>
                      NoteOff playingNote (nextNoteTime (sequencer w))) q
            ++ (if action (events w event) =? 1 then []
                else [NoteOff event
                        (nextNoteTime (sequencer w)
                         + mpLengthOf activeSong (sequencer w))%float])
    /\ nth_error (channelQueue (sequencer w')) ch =
         Some (if action (events w event) =? 1 then [event] else []).
Proof.
  intros Ha Hq.
  destruct (enqueueEvent_note activeSong event ch w q Ha Hq)
    as (w' & Hrun & [Hs He _ _] & _).
  exists w'. split; [exact Hrun|]. split; [exact He|].
  rewrite Hs. cbn. apply nth_error_list_set_eq.
  apply nth_error_Some. congruence.
Qed.

(** ** Module parameter changes *)

(** C8: a module parameter change (action 0) sends exactly one [noteOn], at
    [nextNoteTime], and one [noteOff], at the double [nextNoteTime +
    mpLength], where [mpLength] is ((60 / tempo) * beatAmount) / steps of the
    active pattern, or 0 when there is no such pattern; no queue changes. *)
Theorem enqueueEvent_param_change (activeSong : Song) (event : ev_id)
  (ch : nat) (w : World) :
  action (events w event) = 0 ->
  exists w',
    enqueueEvent activeSong event ch w = Ok tt w'
    /\ emitted w' =
         emitted w
         ++ [NoteOn event (instrument (events w event))
               (nextNoteTime (sequencer w));
             NoteOff event
               (nextNoteTime (sequencer w)
                + mpLength (seq (events w' event)))%float]
    /\ mpLength (seq (events w' event)) =
         match js_index (patterns activeSong) (activePattern (sequencer w)) with
         | Some eventPattern =>
             (((60 / tempo activeSong) * Z2F (beatAmount (sequencer w)))
              / Z2F (Z.of_nat (steps eventPattern)))%float
         | None => 0%float
         end
    /\ channelQueue (sequencer w') = channelQueue (sequencer w).
Proof.
  intro Ha.
  destruct (enqueueEvent_param activeSong event ch w Ha)
    as (w' & Hrun & [Hs He _ _] & Hev).
  exists w'. split; [exact Hrun|].
  rewrite Hev, Nat.eqb_refl, He, Hs. cbn. auto.
Qed.

(** ** Resizing a pattern *)

Lemma nth_list_set_eq {A : Type} (l : list A) (i : nat) (v d : A) :
  (i < length l)%nat -> nth i (list_set l i v) d = v.
Proof.
  revert i; induction l as [|x t IH]; intros [|k] H; cbn in *;
    try lia; auto.
  apply IH; lia.
Qed.

Lemma nth_list_set_ne {A : Type} (l : list A) (i j : nat) (v d : A) :
  i <> j -> nth j (list_set l i v) d = nth j l d.
Proof.
  revert i j; induction l as [|x t IH]; intros [|i] [|j] H; cbn;
    try congruence; auto.
Qed.

Lemma index_of_integer (q : Q) (n : nat) :
  (q == inject_Z (Z.of_nat n))%Q -> index_of q = Some n.
Proof.
  unfold Qeq, index_of; cbn. intro H.
  rewrite Z.mul_1_r in H.
  destruct (Z.ltb_spec (Qnum q) 0) as [Hneg|_]; [nia|].
  rewrite H, Z.mod_mul, Z.div_mul by discriminate.
  cbn. now rewrite Nat2Z.id.
Qed.

Lemma index_of_Some (q : Q) (n : nat) :
  index_of q = Some n -> (q == inject_Z (Z.of_nat n))%Q.
Proof.
  unfold Qeq, index_of; cbn.
  destruct (Z.ltb_spec (Qnum q) 0) as [|Hpos]; [discriminate|].
  destruct (Z.eqb_spec (Qnum q mod Z.pos (Qden q)) 0) as [Hm|];
    [|discriminate].
  intro H; injection H as <-.
  rewrite Z.mul_1_r, Z2Nat.id by (apply Z.div_pos; lia).
  apply Z.div_exact in Hm; lia.
Qed.

Lemma js_put_index (transformed : Channel) (j : Q) (n : nat) (v : Slot) :
  (j == inject_Z (Z.of_nat n))%Q -> (n < length transformed)%nat ->
  js_put transformed j v = list_set transformed n v.
Proof.
  intros Hj Hn. unfold js_put. rewrite (index_of_integer _ _ Hj).
  destruct (Nat.ltb_spec n (length transformed)); [reflexivity|lia].
Qed.

Lemma js_get_index (channel : Channel) (j : Q) (n : nat) :
  (j == inject_Z (Z.of_nat n))%Q -> js_get channel j = nth n channel SUndefined.
Proof.
  intro Hj. unfold js_get. now rewrite (index_of_integer _ _ Hj).
Qed.

Lemma next_index (j increment : Q) (i k : nat) :
  (increment == inject_Z (Z.of_nat k))%Q ->
  (j == inject_Z (Z.of_nat (i * k)))%Q ->
  (j + increment == inject_Z (Z.of_nat (S i * k)))%Q.
Proof.
  intros Hi Hj. rewrite Hi, Hj, <- inject_Z_plus.
  apply inject_Z_injective. lia.
Qed.

(** The reducing loop with an integral increment [k]. *)
Lemma reduce_integral (k : nat) (increment : Q) (channel : Channel) :
  (increment == inject_Z (Z.of_nat k))%Q ->
  forall n i j transformed,
    (j == inject_Z (Z.of_nat (i * k)))%Q ->
    (i + n <= length transformed)%nat ->
    length (reduce n i j increment channel transformed) = length transformed
    /\ forall x,
         nth x (reduce n i j increment channel transformed) SUndefined =
         if (i <=? x)%nat && (x <? i + n)%nat
         then nth (x * k) channel SUndefined
         else nth x transformed SUndefined.
Proof.
  intro Hinc. induction n as [|n IH]; intros i j transformed Hj Hlen.
  - cbn [reduce]. split; [reflexivity|]. intro x.
    destruct (Nat.leb_spec i x), (Nat.ltb_spec x (i + 0)); cbn [andb]; auto; lia.
  - cbn [reduce].
    rewrite (js_put_index transformed _ i) by (reflexivity || lia).
    rewrite (js_get_index channel j (i * k) Hj).
    destruct (IH (S i) (j + increment)%Q
                (list_set transformed i (nth (i * k) channel SUndefined))
                (next_index _ _ _ _ Hinc Hj)) as [IHlen IHnth].
    { rewrite list_set_length. lia. }
    split; [now rewrite IHlen, list_set_length|].
    intro x. rewrite IHnth.
    destruct (Nat.eq_dec x i) as [->|Hx].
    + destruct (Nat.leb_spec (S i) i); [lia|]. cbn [andb].
      rewrite nth_list_set_eq by lia.
      destruct (Nat.leb_spec i i), (Nat.ltb_spec i (i + S n)); cbn [andb]; auto; lia.
    + rewrite nth_list_set_ne by congruence.
      destruct (Nat.leb_spec (S i) x), (Nat.ltb_spec x (S i + n)),
        (Nat.leb_spec i x), (Nat.ltb_spec x (i + S n)); cbn [andb]; auto; lia.
Qed.

(** The increasing loop with an integral increment [k >= 1]. *)
Lemma increase_integral (k : nat) (increment : Q) (channel : Channel) :
  (increment == inject_Z (Z.of_nat k))%Q -> (1 <= k)%nat ->
  forall n i j transformed,
    (j == inject_Z (Z.of_nat (i * k)))%Q ->
    ((i + n) * k <= length transformed)%nat ->
    length (increase n i j increment channel transformed) = length transformed
    /\ (forall y, (i <= y < i + n)%nat ->
          nth (y * k) (increase n i j increment channel transformed) SUndefined
          = nth y channel SUndefined)
    /\ (forall x, (forall y, (i <= y < i + n)%nat -> x <> (y * k)%nat) ->
          nth x (increase n i j increment channel transformed) SUndefined
          = nth x transformed SUndefined).
Proof.
  intros Hinc Hk. induction n as [|n IH]; intros i j transformed Hj Hlen.
  - cbn. repeat split; auto. intros y Hy; lia.
  - cbn [increase].
    rewrite (js_put_index transformed j (i * k) _ Hj) by nia.
    rewrite (js_get_index channel _ i) by reflexivity.
    destruct (IH (S i) (j + increment)%Q
                (list_set transformed (i * k) (nth i channel SUndefined))
                (next_index _ _ _ _ Hinc Hj)) as (IHlen & IHin & IHout).
    { rewrite list_set_length. nia. }
    rewrite list_set_length in IHlen.
    split; [exact IHlen|]. split.
    + intros y Hy. destruct (Nat.eq_dec y i) as [->|Hne].
      * rewrite IHout by (intros y Hy'; nia).
        apply nth_list_set_eq. nia.
      * apply IHin. lia.
    + intros x Hx. rewrite IHout by (intros y Hy; apply Hx; lia).
      apply nth_list_set_ne. intro E. apply (Hx i); [lia|congruence].
Qed.

Lemma quotient_integral (a b k : nat) :
  (0 < b)%nat -> a = (k * b)%nat ->
  (inject_Z (Z.of_nat a) / inject_Z (Z.of_nat b) == inject_Z (Z.of_nat k))%Q.
Proof.
  intros Hb ->. rewrite Nat2Z.inj_mul, inject_Z_mult.
  field. intro E. unfold Qeq in E. cbn in E. lia.
Qed.

Lemma reduce_length (increment : Q) (channel : Channel) :
  forall n i j transformed,
    (i + n <= length transformed)%nat ->
    length (reduce n i j increment channel transformed) = length transformed.
Proof.
  induction n as [|n IH]; intros i j transformed Hlen; [reflexivity|].
  cbn [reduce].
  rewrite (js_put_index transformed _ i) by (reflexivity || lia).
  rewrite IH; rewrite list_set_length; lia.
Qed.

(** The reducing loop writes at the integers [0 .. steps - 1]: the new
    channel has the new length. *)
Lemma transform_length_reduce (oldAmount newSteps : nat) (channel : Channel) :
  (newSteps < oldAmount)%nat ->
  length (transform oldAmount newSteps channel) = newSteps.
Proof.
  intro Hlt. unfold transform.
  destruct (Nat.ltb_spec newSteps oldAmount) as [_|Hge]; [|lia].
  rewrite reduce_length; rewrite repeat_length; lia.
Qed.

(** For a new count that is a multiple of the old one, the increasing loop
    writes at multiples of the quotient below the new length. *)
Lemma transform_length_multiple (oldAmount newSteps k : nat)
  (channel : Channel) :
  (oldAmount <= newSteps)%nat ->
  newSteps = (k * oldAmount)%nat ->
  length (transform oldAmount newSteps channel) = newSteps.
Proof.
  intros Hle Hk. unfold transform.
  destruct (Nat.ltb_spec newSteps oldAmount) as [Hlt|_]; [lia|].
  destruct oldAmount as [|m]; [apply repeat_length|].
  assert (Hk1 : (1 <= k)%nat) by nia.
  assert (Hpos : (0 < S m)%nat) by lia.
  destruct (increase_integral k
              (inject_Z (Z.of_nat newSteps) / inject_Z (Z.of_nat (S m)))%Q
              channel
              (quotient_integral _ _ _ Hpos Hk) Hk1
              (S m) 0%nat 0%Q (repeat SZero newSteps))
    as (Hlen & _ & _).
  - reflexivity.
  - rewrite repeat_length. nia.
  - rewrite Hlen. apply repeat_length.
Qed.

Lemma nth_repeat_zero (n x : nat) :
  (x < n)%nat -> nth x (repeat SZero n) SUndefined = SZero.
Proof.
  revert x; induction n as [|n IH]; intros [|x] H; cbn; try lia; auto.
  apply IH; lia.
Qed.

(** C4: when the old step count is an integer multiple [k] of a smaller new
    one, every channel of the pattern is replaced by one of the new length
    whose slot [i] holds what the old slot [i * k] held. *)
Theorem setPatternSteps_reduces (pattern : Pattern) (newSteps k : nat) :
  (newSteps < steps pattern)%nat ->
  steps pattern = (k * newSteps)%nat ->
  Forall2
    (fun old new =>
       length new = newSteps
       /\ forall i, (i < newSteps)%nat ->
            nth i new SUndefined = nth (i * k) old SUndefined)
    (patChannels pattern)
    (patChannels (setPatternSteps pattern newSteps)).
Proof.
  intros Hlt Hk. cbn [setPatternSteps patChannels].
  induction (patChannels pattern) as [|channel rest IH]; constructor; auto.
  split; [now apply transform_length_reduce|].
  intros i Hi. unfold transform.
  destruct (Nat.ltb_spec newSteps (steps pattern)); [|lia].
  assert (Hpos : (0 < newSteps)%nat) by lia.
  destruct (reduce_integral k
              (inject_Z (Z.of_nat (steps pattern))
               / inject_Z (Z.of_nat newSteps))%Q channel
              (quotient_integral _ _ _ Hpos Hk)
              newSteps 0%nat 0%Q (repeat SZero newSteps))
    as [_ Hnth].
  - reflexivity.
  - rewrite repeat_length. lia.
  - rewrite Hnth.
    destruct (Nat.leb_spec 0 i), (Nat.ltb_spec i (0 + newSteps));
      cbn [andb]; auto; lia.
Qed.

(** C5: when the new step count is an integer multiple [k] of the old one
    and not below it, every channel of the pattern is replaced by one of the
    new length whose slot [i * k] holds what the old slot [i] held and whose
    every other slot holds 0; a channel of the old length resized to that
    same length is unchanged. *)
Theorem setPatternSteps_increases (pattern : Pattern) (newSteps k : nat) :
  (steps pattern <= newSteps)%nat ->
  newSteps = (k * steps pattern)%nat ->
  Forall2
    (fun old new =>
       length new = newSteps
       /\ (forall i, (i < steps pattern)%nat ->
             nth (i * k) new SUndefined = nth i old SUndefined)
       /\ (forall x, (x < newSteps)%nat ->
             (forall i, (i < steps pattern)%nat -> x <> (i * k)%nat) ->
             nth x new SUndefined = SZero)
       /\ (newSteps = steps pattern -> length old = steps pattern ->
           new = old))
    (patChannels pattern)
    (patChannels (setPatternSteps pattern newSteps)).
Proof.
  intros Hle Hk. cbn [setPatternSteps patChannels].
  induction (patChannels pattern) as [|channel rest IH]; constructor; auto.
  clear IH.
  assert (Hlen : length (transform (steps pattern) newSteps channel)
                 = newSteps)
    by exact (transform_length_multiple _ _ k channel Hle Hk).
  assert (Hin : forall i, (i < steps pattern)%nat ->
            nth (i * k) (transform (steps pattern) newSteps channel)
              SUndefined = nth i channel SUndefined).
  { intros i Hi.
    assert (Hpos : (0 < steps pattern)%nat) by lia.
    assert (Hk1 : (1 <= k)%nat) by nia.
    unfold transform.
    destruct (Nat.ltb_spec newSteps (steps pattern)); [lia|].
    destruct (increase_integral k
                (inject_Z (Z.of_nat newSteps)
                 / inject_Z (Z.of_nat (steps pattern)))%Q channel
                (quotient_integral _ _ _ Hpos Hk) Hk1
                (steps pattern) 0%nat 0%Q (repeat SZero newSteps))
      as (_ & Hnth & _).
    - reflexivity.
    - rewrite repeat_length. nia.
    - apply Hnth. lia. }
  split; [exact Hlen|]. split; [exact Hin|]. split.
  - intros x Hx Hne.
    assert (Hpos : (0 < steps pattern)%nat) by nia.
    assert (Hk1 : (1 <= k)%nat) by nia.
    unfold transform.
    destruct (Nat.ltb_spec newSteps (steps pattern)); [lia|].
    destruct (increase_integral k
                (inject_Z (Z.of_nat newSteps)
                 / inject_Z (Z.of_nat (steps pattern)))%Q channel
                (quotient_integral _ _ _ Hpos Hk) Hk1
                (steps pattern) 0%nat 0%Q (repeat SZero newSteps))
      as (_ & _ & Hout).
    + reflexivity.
    + rewrite repeat_length. nia.
    + rewrite Hout by (intros y Hy; apply Hne; lia).
      now apply nth_repeat_zero.
  - intros Heq Hold.
    apply (nth_ext _ _ SUndefined SUndefined); [lia|].
    intros n Hn. rewrite Hlen in Hn.
    assert (Hk1 : k = 1%nat) by nia.
    rewrite <- (Hin n) by lia. now rewrite Hk1, Nat.mul_1_r.
Qed.

(** C4, at a pattern of 8 steps reduced to 4: every second slot is kept. *)
Lemma setPatternSteps_reduces_witness :
  Forall2
    (fun old new =>
       length new = 4%nat
       /\ forall i, (i < 4)%nat ->
            nth i new SUndefined = nth (i * 2) old SUndefined)
    [[SEvent 0; SZero; SEvent 1; SZero; SZero; SEvent 2; SZero; SZero]]
    (patChannels
       (setPatternSteps
          (mkPattern 8
             [[SEvent 0; SZero; SEvent 1; SZero; SZero; SEvent 2; SZero; SZero]])
          4)).
Proof.
  apply (setPatternSteps_reduces
           (mkPattern 8
              [[SEvent 0; SZero; SEvent 1; SZero; SZero; SEvent 2; SZero; SZero]])
           4 2).
  - cbn. lia.
  - reflexivity.
Defined.

(** The increment of the two resizings below, 6 / 4, and the values the
    running index takes are binary fractions: the doubles of the source hold
    them exactly, and the rationals of the model are these doubles. *)
Lemma fractional_increment_exact :
  (Z2F 6 / Z2F 4 = 1.5)%float
  /\ (0 + 1.5 = 1.5)%float /\ (1.5 + 1.5 = 3)%float /\ (3 + 1.5 = 4.5)%float
  /\ (F2Q 1.5 == inject_Z 6 / inject_Z 4)%Q
  /\ (F2Q 3 == 2 * (inject_Z 6 / inject_Z 4))%Q
  /\ (F2Q 4.5 == 3 * (inject_Z 6 / inject_Z 4))%Q.
Proof. repeat split; vm_compute; reflexivity. Qed.

(** C4 fails when the old count is no multiple of the new one: from 6 steps
    to 4 the increment is 1.5, the running index takes the values 0, 1.5, 3
    and 4.5, and the slots read at 1.5 and 4.5 are [undefined]; slot 1 of the
    new channel is not the old slot 1 * (6 / 4) = 1. *)
Lemma setPatternSteps_reduces_no_truncation :
  let old := [SEvent 0; SEvent 1; SEvent 2; SEvent 3; SEvent 4; SEvent 5] in
  let pattern := setPatternSteps (mkPattern 6 [old]) 4 in
  patChannels pattern = [[SEvent 0; SUndefined; SEvent 3; SUndefined]]
  /\ ~ Forall2
         (fun old new =>
            forall i, (i < 4)%nat ->
              nth i new SUndefined = nth (i * (6 / 4)) old SUndefined)
         [old] (patChannels pattern).
Proof.
  split; [reflexivity|].
  intro H. inversion H as [|? ? ? ? Hhead _]; subst.
  specialize (Hhead 1%nat ltac:(lia)). cbv in Hhead. discriminate.
Qed.

(** C5, at a pattern of 4 steps resized to 8. *)
Lemma setPatternSteps_increases_witness :
  Forall2
    (fun old new =>
       length new = 8%nat
       /\ (forall i, (i < 4)%nat ->
             nth (i * 2) new SUndefined = nth i old SUndefined)
       /\ (forall x, (x < 8)%nat ->
             (forall i, (i < 4)%nat -> x <> (i * 2)%nat) ->
             nth x new SUndefined = SZero)
       /\ (8%nat = 4%nat -> length old = 4%nat -> new = old))
    [[SEvent 0; SZero; SEvent 1; SEvent 2]]
    (patChannels
       (setPatternSteps (mkPattern 4 [[SEvent 0; SZero; SEvent 1; SEvent 2]]) 8)).
Proof.
  apply (setPatternSteps_increases
           (mkPattern 4 [[SEvent 0; SZero; SEvent 1; SEvent 2]]) 8 2).
  - cbn. lia.
  - reflexivity.
Defined.

(** C5 fails when the new count is no multiple of the old one: from 4 steps
    to 6 the increment is 1.5; the writes at 1.5 and 4.5 set properties that
    are no elements, so the old slots 1 and 3 are lost and the new slot
    1 * (6 / 4) = 1 holds 0. *)
Lemma setPatternSteps_increases_no_truncation :
  let old := [SEvent 0; SEvent 1; SEvent 2; SEvent 3] in
  let pattern := setPatternSteps (mkPattern 4 [old]) 6 in
  patChannels pattern = [[SEvent 0; SZero; SZero; SEvent 2; SZero; SZero]]
  /\ ~ Forall2
         (fun old new =>
            forall i, (i < 4)%nat ->
              nth (i * (6 / 4)) new SUndefined = nth i old SUndefined)
         [old] (patChannels pattern).
Proof.
  split; [reflexivity|].
  intro H. inversion H as [|? ? ? ? Hhead _]; subst.
  specialize (Hhead 1%nat ltac:(lia)). cbv in Hhead. discriminate.
Qed.

(** ** Running [setPosition] *)

Lemma set_seqPlaying_twice (v : bool) (e : AudioEvent) :
  set_seqPlaying v (set_seqPlaying v e) = set_seqPlaying v e.
Proof. reflexivity. Qed.

Lemma stopPlaying_run (ch : nat) (time : float) (q : LinkedList) :
  forall w, exists w',
    stopPlaying ch q time w = Ok tt w'
    /\ reaches w w'
         match q with
         | [] => channelQueue (sequencer w)
         | _ => list_set (channelQueue (sequencer w)) ch []
         end
         (map (fun playingNote => NoteOff playingNote time) q)
    /\ (forall id, In id q -> events w' id = set_seqPlaying false (events w id))
    /\ (forall id, ~ In id q -> events w' id = events w id).
Proof.
  induction q as [|playingNote rest IH]; intro w.
  - exists w. cbn. split; [reflexivity|]. split; [|split; tauto].
    split; auto using app_nil_r. now rewrite set_channelQueue_same.
  - cbn [stopPlaying].
    unfold bind at 1, dequeueEvent, emit.
    unfold bind at 1, update_event.
    unfold bind at 1, set_queue, modify.
    match goal with |- context [stopPlaying ch rest time ?w0] =>
      destruct (IH w0) as (w' & Hrun & [Hs He Hc Hr] & Hin & Hout) end.
    exists w'. split; [exact Hrun|].
    cbn in Hs, He, Hc, Hr, Hin, Hout.
    split; [split; auto|split].
    + rewrite Hs. destruct rest; cbn; [|rewrite list_set_twice]; reflexivity.
    + rewrite He, <- app_assoc. reflexivity.
    + intros id Hid.
      destruct (in_dec Nat.eq_dec id rest) as [Hr'|Hr'].
      * rewrite (Hin id Hr'). unfold store_put.
        destruct (Nat.eqb_spec id playingNote) as [->|_]; reflexivity.
      * rewrite (Hout id Hr').
        destruct Hid as [->|Hid]; [|contradiction].
        now rewrite store_put_eq.
    + intros id Hid. rewrite Hout by (intro; apply Hid; now right).
      apply store_put_ne. intros ->. apply Hid. now left.
Qed.

Lemma list_set_middle {A : Type} (pre suf : list A) (x v : A) :
  list_set (pre ++ x :: suf) (length pre) v = pre ++ v :: suf.
Proof. induction pre as [|y pre IH]; cbn; [reflexivity|now rewrite IH]. Qed.

Lemma nth_error_middle {A : Type} (pre suf : list A) (x : A) :
  nth_error (pre ++ x :: suf) (length pre) = Some x.
Proof. induction pre as [|y pre IH]; cbn; auto. Qed.

Lemma stopQueues_run (time : float) (suf : list LinkedList) :
  forall (pre : list LinkedList) (w : World),
    channelQueue (sequencer w) = pre ++ suf ->
    exists w',
      stopQueues (length pre) (length suf) time w = Ok tt w'
      /\ reaches w w' (pre ++ map (fun _ => []) suf) (noteOffs suf time)
      /\ (forall id, In id (concat suf) ->
            events w' id = set_seqPlaying false (events w id))
      /\ (forall id, ~ In id (concat suf) -> events w' id = events w id).
Proof.
  induction suf as [|q suf IH]; intros pre w Hcq.
  - exists w. cbn. split; [reflexivity|]. split; [|split; tauto].
    split; auto using app_nil_r.
    rewrite app_nil_r in Hcq. rewrite app_nil_r, <- Hcq.
    now rewrite set_channelQueue_same.
  - cbn [stopQueues length].
    unfold bind at 1. unfold queue_of. rewrite Hcq, nth_error_middle.
    unfold bind at 1.
    destruct (stopPlaying_run (length pre) time q w)
      as (w1 & Hrun1 & [Hs1 He1 Hc1 Hr1] & Hin1 & Hout1).
    rewrite Hrun1.
    assert (Hcq1 : channelQueue (sequencer w1) = (pre ++ [[]]) ++ suf).
    { rewrite Hs1, Hcq. cbn. rewrite <- app_assoc. cbn.
      destruct q; [reflexivity|apply list_set_middle]. }
    destruct (IH (pre ++ [[]]) w1 Hcq1)
      as (w' & Hrun & [Hs He Hc Hr] & Hin & Hout).
    rewrite length_app, Nat.add_1_r in Hrun.
    exists w'. split; [exact Hrun|]. split; [split|split].
    + rewrite Hs, Hs1. cbn. now rewrite <- app_assoc.
    + rewrite He, He1. cbn. unfold noteOffs. cbn. now rewrite app_assoc.
    + congruence.
    + congruence.
    + intros id Hid. cbn in Hid.
      destruct (in_dec Nat.eq_dec id (concat suf)) as [Hs'|Hs'].
      * rewrite (Hin id Hs').
        destruct (in_dec Nat.eq_dec id q) as [Hq|Hq].
        -- now rewrite (Hin1 id Hq).
        -- now rewrite (Hout1 id Hq).
      * rewrite (Hout id Hs'). apply Hin1.
        apply in_app_or in Hid. tauto.
    + intros id Hid. cbn in Hid.
      rewrite Hout, Hout1; auto; intro; apply Hid; apply in_or_app; tauto.
Qed.

Lemma setPosition_run (activeSong : Song) (pattern : Z)
  (currentTime : option float) (w : World) (pat : Pattern) :
  let p := targetPattern activeSong pattern in
  let t := targetTime currentTime w in
  let cq := channelQueue (sequencer w) in
  js_index (patterns activeSong) p = Some pat ->
  exists w',
    setPosition activeSong pattern currentTime w = Ok tt w'
    /\ reaches (with_sequencer (positioned activeSong p t (sequencer w)) w) w'
         (if p =? 0 then map (fun _ => []) cq else cq)
         (if p =? 0 then noteOffs cq t else [])
    /\ (forall id, p = 0 -> In id (concat cq) ->
          events w' id = set_seqPlaying false (events w id))
    /\ (forall id, p <> 0 \/ ~ In id (concat cq) ->
          events w' id = events w id).
Proof.
  intros p t cq Hpat.
  unfold setPosition. fold (targetPattern activeSong pattern). fold p.
  unfold bind at 1, state.
  unfold bind at 1.
  set (w0 := with_sequencer
               (set_currentStep
                  (if activePattern (sequencer w) =? p
                   then currentStep (sequencer w) else 0) (sequencer w)) w).
  assert (H0 : (if negb (activePattern (sequencer w) =? p)
                then modify (set_currentStep 0) else ret tt) w = Ok tt w0
               \/ w0 = w /\ (activePattern (sequencer w) =? p) = true).
  { destruct (activePattern (sequencer w) =? p); [|now left].
    right. split; [|reflexivity]. subst w0. destruct w as [[] ? ? ? ?].
    reflexivity. }
  assert (Hrun0 : (if negb (activePattern (sequencer w) =? p)
                   then modify (set_currentStep 0) else ret tt) w = Ok tt w0).
  { destruct H0 as [H0|[H0 E]]; [exact H0|]. rewrite E, H0. reflexivity. }
  rewrite Hrun0. clear H0 Hrun0. subst w0.
  unfold bind, state, modify, ret, throw. cbn.
  unfold targetTime in t. fold t. rewrite Hpat. cbn.
  destruct (Z.eqb_spec p 0) as [Hp|Hp].
  - match goal with |- context [stopQueues 0 _ t ?w1] =>
      destruct (stopQueues_run t cq [] w1 eq_refl)
        as (w' & Hrun & [Hs He Hc Hr] & Hin & Hout) end.
    exists w'. split; [exact Hrun|]. split; [split; auto|split].
    + intros id _ Hid. now rewrite (Hin id Hid).
    + intros id [Hne|Hid]; [contradiction|]. now rewrite (Hout id Hid).
  - eexists. split; [reflexivity|].
    split; [split; cbn; auto; now rewrite app_nil_r|split].
    + intros id E. contradiction.
    + reflexivity.
Qed.

Lemma setPosition_throws (activeSong : Song) (pattern : Z)
  (currentTime : option float) (w : World) :
  js_index (patterns activeSong) (targetPattern activeSong pattern) = None ->
  exists w',
    setPosition activeSong pattern currentTime w = Throws w'
    /\ activePattern (sequencer w') = targetPattern activeSong pattern.
Proof.
  intro Hpat.
  unfold setPosition. fold (targetPattern activeSong pattern).
  unfold bind, state, modify, ret, throw.
  destruct (negb (activePattern (sequencer w)
                  =? targetPattern activeSong pattern));
    cbn; rewrite Hpat; eexists; split; reflexivity.
Qed.

(** ** Committing a position *)

Lemma first_pattern_exists (activeSong : Song) :
  patterns activeSong <> [] ->
  targetPattern activeSong 0 = 0
  /\ exists pat, js_index (patterns activeSong) 0 = Some pat.
Proof.
  intro Hne. unfold targetPattern, js_index.
  destruct (patterns activeSong) as [|pat rest]; [contradiction|].
  cbn [length]. split; [|now exists pat].
  destruct (Z.geb_spec 0 (Z.of_nat (S (length rest)))); [lia|reflexivity].
Qed.

(** C7: in a song that has a pattern, [setPosition] to pattern 0 at a time
    [t] sends [noteOff(event, t)] for every entry of every queue, unsets
    [seq.playing] of each of these events and leaves every queue empty. *)
Theorem setPosition_start_stops_all (activeSong : Song) (t : float)
  (w : World) :
  patterns activeSong <> [] ->
  exists w',
    setPosition activeSong 0 (Some t) w = Ok tt w'
    /\ emitted w' = emitted w ++ noteOffs (channelQueue (sequencer w)) t
    /\ (forall q id, In q (channelQueue (sequencer w)) -> In id q ->
          seqPlaying (seq (events w' id)) = false)
    /\ channelQueue (sequencer w')
       = map (fun _ => []) (channelQueue (sequencer w)).
Proof.
  intro Hne.
  destruct (first_pattern_exists activeSong Hne) as [Hp [pat Hpat]].
  rewrite <- Hp in Hpat.
  destruct (setPosition_run activeSong 0 (Some t) w pat Hpat)
    as (w' & Hrun & [Hs He _ _] & Hin & _).
  rewrite Hp in Hs, He, Hin. cbn in Hs, He, Hin.
  exists w'. split; [exact Hrun|]. split; [exact He|]. split.
  - intros q id Hq Hid. rewrite Hin; auto.
    apply in_concat. now exists q.
  - now rewrite Hs.
Qed.

(** C6: in a song that has a pattern, [setPosition] to a pattern that is not
    negative settles on that pattern, or on the last one when the argument is
    at or beyond the number of patterns: the active pattern then lies within
    [0, patterns.length - 1]. *)
Theorem setPosition_clamps_above (activeSong : Song) (pattern : Z)
  (currentTime : option float) (w : World) :
  patterns activeSong <> [] ->
  0 <= pattern ->
  exists w',
    setPosition activeSong pattern currentTime w = Ok tt w'
    /\ activePattern (sequencer w')
       = Z.min pattern (Z.of_nat (length (patterns activeSong)) - 1)
    /\ 0 <= activePattern (sequencer w')
         <= Z.of_nat (length (patterns activeSong)) - 1.
Proof.
  intros Hne Hpos.
  assert (Hlen : 0 < Z.of_nat (length (patterns activeSong))).
  { destruct (patterns activeSong); [contradiction|cbn [length]; lia]. }
  assert (Htarget : targetPattern activeSong pattern
                    = Z.min pattern (Z.of_nat (length (patterns activeSong)) - 1)).
  { unfold targetPattern.
    destruct (Z.geb_spec pattern (Z.of_nat (length (patterns activeSong))));
      lia. }
  assert (Hpat : exists pat,
            js_index (patterns activeSong) (targetPattern activeSong pattern)
            = Some pat).
  { unfold js_index. rewrite Htarget.
    destruct (Z.ltb_spec (Z.min pattern
                (Z.of_nat (length (patterns activeSong)) - 1)) 0); [lia|].
    destruct (nth_error (patterns activeSong)
                (Z.to_nat (Z.min pattern
                   (Z.of_nat (length (patterns activeSong)) - 1)))) eqn:E;
      [eauto|].
    apply nth_error_None in E. lia. }
  destruct Hpat as [pat Hpat].
  destruct (setPosition_run activeSong pattern currentTime w pat Hpat)
    as (w' & Hrun & [Hs _ _ _] & _).
  exists w'. split; [exact Hrun|].
  rewrite Hs. cbn. rewrite Htarget. lia.
Qed.

(** ** The statements at sample worlds *)

(** C2 at step 4 of the sample song: event 1 starts at 0.5 s, event 0 is
    stopped at 0.5 s, and the queue holds event 1 only. *)
Lemma enqueueEvent_kills_queued_witness :
  exists w',
    enqueueEvent song120 1 0 atStep4 = Ok tt w'
    /\ emitted w' = [NoteOn 1 0 0.5; NoteOff 0 0.5]
    /\ nth_error (channelQueue (sequencer w')) 0 = Some [1%nat].
Proof.
  apply (enqueueEvent_kills_queued song120 1 0 atStep4 [0%nat]).
  - cbn. discriminate.
  - reflexivity.
Defined.

(** C7 at step 4 of the sample song, where event 0 is queued. *)
Lemma setPosition_start_stops_all_witness :
  exists w',
    setPosition song120 0 (Some 2%float) atStep4 = Ok tt w'
    /\ emitted w' = [NoteOff 0 2]
    /\ (forall q id, In q [[0%nat]] -> In id q ->
          seqPlaying (seq (events w' id)) = false)
    /\ channelQueue (sequencer w') = [[]].
Proof.
  apply (setPosition_start_stops_all song120 2 atStep4).
  discriminate.
Defined.

(** C6 at a pattern beyond the only one of the sample song. *)
Lemma setPosition_clamps_above_witness :
  exists w',
    setPosition song120 5 None atStep4 = Ok tt w'
    /\ activePattern (sequencer w') = 0
    /\ 0 <= activePattern (sequencer w') <= 0.
Proof.
  apply (setPosition_clamps_above song120 5 None atStep4).
  - discriminate.
  - lia.
Defined.

(** C6 fails below: pattern -1 is taken as it is, and reading the channels
    of [patterns[-1]] throws with the active pattern left at -1. *)
Lemma setPosition_negative_unclamped :
  exists w',
    setPosition song120 (-1) (Some 0%float) atStep4 = Throws w'
    /\ activePattern (sequencer w') = -1
    /\ ~ 0 <= activePattern (sequencer w')
           <= Z.of_nat (length (patterns song120)) - 1.
Proof.
  eexists. split; [vm_compute; reflexivity|]. cbn. split; [reflexivity|lia].
Qed.

(** C8 at a module parameter change of the 75 BPM song. *)
Lemma enqueueEvent_param_change_witness :
  exists w',
    enqueueEvent song75 0 0 atStart75 = Ok tt w'
    /\ emitted w' =
         [NoteOn 0 0 0; NoteOff 0 (0 + mpLength (seq (events w' 0%nat)))%float]
    /\ mpLength (seq (events w' 0%nat)) = 0.2%float
    /\ channelQueue (sequencer w') = [[]].
Proof.
  apply (enqueueEvent_param_change song75 0 0 atStart75).
  reflexivity.
Defined.

(** C8 fails on the difference of the two times: at 75 BPM the change of
    step 2 starts at 0.4 and ends at the double 0.4 + 0.2, which is
    0.60000000000000009; the difference of the two, taken in doubles or
    exactly, is not the 0.2 of [mpLength]. *)
Lemma param_change_length_rounded :
  exists w',
    collect 3 song75 atStart75 = Ok tt w'
    /\ emitted w' = [NoteOn 0 0 0.4; NoteOff 0 0.60000000000000009]
    /\ mpLength (seq (events w' 0%nat)) = 0.2%float
    /\ PrimFloat.eqb (0.60000000000000009 - 0.4) 0.2 = false
    /\ ~ (F2Q 0.60000000000000009 - F2Q 0.4 == F2Q 0.2)%Q.
Proof.
  eexists. split; [vm_compute; reflexivity|].
  split; [reflexivity|]. split; [reflexivity|]. split; [reflexivity|].
  vm_compute. discriminate.
Qed.

(** ** Running [step] *)

Lemma targetPattern_within (activeSong : Song) (p : Z) (pat : Pattern) :
  js_index (patterns activeSong) p = Some pat ->
  targetPattern activeSong p = p.
Proof.
  unfold js_index, targetPattern. intro H.
  destruct (Z.ltb_spec p 0); [discriminate|].
  assert (Z.to_nat p < length (patterns activeSong))%nat
    by (apply nth_error_Some; congruence).
  destruct (Z.geb_spec p (Z.of_nat (length (patterns activeSong)))); lia.
Qed.

Lemma step_within_measure (activeSong : Song) (w : World) :
  currentStep (sequencer w) + 1 <> stepPrecision (sequencer w) ->
  step activeSong w
  = Ok tt (with_sequencer
             (set_currentStep (currentStep (sequencer w) + 1)
                (set_nextNoteTime (nextTime activeSong (sequencer w))
                   (sequencer w))) w).
Proof.
  intro Hne. unfold step, bind, modify, state, setCurrentStep, modify, ret.
  cbn.
  destruct (Z.eqb_spec (currentStep (sequencer w) + 1)
              (stepPrecision (sequencer w))); [contradiction|reflexivity].
Qed.

Lemma nextMeasure_stops (activeSong : Song) (w : World) :
  stopsRecording activeSong w = true ->
  nextMeasure activeSong w
  = Ok true
      (with_sequencer
         (set_channelQueue
            (map (fun _ => []) (channelQueue (sequencer w)))
            (set_playing false (set_activePattern 0 (sequencer w))))
         (with_emitted (emitted w ++ [WorkerStop]) w)).
Proof.
  unfold stopsRecording. intro H.
  apply andb_prop in H as [H Hl]. apply andb_prop in H as [Hm Hr].
  unfold nextMeasure, bind, state, setActivePattern, setPlaying, modify, emit,
    bind, ret, modify.
  rewrite Hm. cbn. rewrite Hr, Hl. reflexivity.
Qed.

Lemma nextMeasure_goes_on (activeSong : Song) (w : World) :
  stopsRecording activeSong w = false ->
  nextMeasure activeSong w
  = Ok false
      (with_sequencer
         (set_activePattern (reachedPattern activeSong (sequencer w))
            (sequencer w)) w).
Proof.
  unfold stopsRecording, reachedPattern. intro H.
  destruct w as [s h l c r]. destruct s. cbn in *.
  unfold nextMeasure, bind, state, setActivePattern, setPlaying,
    gotoNextPattern, modify, emit, bind, state, ret, modify. cbn.
  match goal with |- context [?a >? ?b] => destruct (Z.gtb_spec a b) end;
    cbn in *.
  - rewrite H. reflexivity.
  - destruct looping0; cbn; [reflexivity|].
    match goal with |- context [?a <? ?b] => destruct (Z.ltb_spec a b) end;
      [reflexivity|lia].
Qed.

Lemma endCountIn_run (w : World) :
  (countingIn (sequencer w) = true -> audioContext w <> None) ->
  endCountIn w
  = Ok tt
      (if countingIn (sequencer w)
       then with_sequencer
              (set_activePattern 0
                 (set_firstMeasureStartTime (contextTime w)
                    (set_metronome
                       (mkMetronome (restore (metronome (sequencer w)))
                          (countIn (metronome (sequencer w))) true
                          (restore (metronome (sequencer w))))
                       (sequencer w)))) w
       else w).
Proof.
  unfold countingIn, contextTime. intro Hctx.
  unfold endCountIn, bind, state, modify, setActivePattern, modify, throw, ret.
  destruct (recording (sequencer w)); cbn; [|reflexivity].
  destruct (countIn (metronome (sequencer w))
            && negb (countInComplete (metronome (sequencer w)))) eqn:E;
    cbn in *; [|reflexivity].
  destruct (audioContext w); [reflexivity|].
  exfalso. now apply Hctx.
Qed.

Lemma step_commits (activeSong : Song) (w : World) (pat : Pattern) :
  let s := sequencer w in
  let p := reachedPattern activeSong s in
  let cq := channelQueue s in
  currentStep s + 1 = stepPrecision s ->
  stopsRecording activeSong w = false ->
  js_index (patterns activeSong) p = Some pat ->
  (countingIn s = true -> audioContext w <> None) ->
  exists w',
    step activeSong w = Ok tt w'
    /\ reaches
         (with_sequencer (afterMeasure activeSong p (contextTime w) s) w) w'
         (if p =? 0 then map (fun _ => []) cq else cq)
         (if p =? 0 then noteOffs cq (nextTime activeSong s) else [])
    /\ (forall id, p = 0 -> In id (concat cq) ->
          events w' id = set_seqPlaying false (events w id))
    /\ (forall id, p <> 0 \/ ~ In id (concat cq) ->
          events w' id = events w id).
Proof.
  intros s p cq Hcs Hstop Hpat Hctx.
  unfold step.
  unfold bind at 1, modify.
  unfold bind at 1, state.
  unfold bind at 1, setCurrentStep, modify.
  unfold bind at 1, state.
  cbn [sequencer with_sequencer currentStep stepPrecision set_currentStep
         set_nextNoteTime].
  fold s. rewrite Hcs, Z.eqb_refl.
  unfold bind at 1, modify.
  unfold bind at 1.
  match goal with |- context [nextMeasure activeSong ?w0] =>
    rewrite (nextMeasure_goes_on activeSong w0 Hstop) end.
  unfold bind at 1, state.
  unfold bind at 1.
  match goal with |- context [setPosition activeSong ?a ?t ?w0] =>
    assert (Ha : a = p) by reflexivity;
    destruct (setPosition_run activeSong a t w0 pat)
      as (w1 & Hrun & [Hs He Hc Hr] & Hin & Hout)
  end.
  { rewrite Ha, (targetPattern_within _ _ _ Hpat). exact Hpat. }
  rewrite Hrun. clear Hrun.
  rewrite Ha, (targetPattern_within _ _ _ Hpat) in Hs, He, Hin, Hout.
  cbn in Hs, He, Hc, Hr, Hin, Hout. fold s in Hs, He.
  unfold bind at 1.
  assert (Hcount : countingIn (sequencer w1) = countingIn s)
    by (rewrite Hs; reflexivity).
  assert (Hnow : contextTime w1 = contextTime w)
    by (unfold contextTime; now rewrite Hc).
  rewrite endCountIn_run
    by (rewrite Hcount; intro E; rewrite Hc; auto).
  rewrite Hcount, Hnow.
  unfold bind, state, setActivePattern, modify.
  unfold afterMeasure. fold s.
  assert (Hstate : forall a b c,
            positioned activeSong p (nextTime activeSong s)
              (set_activePattern
                 (reachedPattern activeSong
                    (set_currentStep a (set_currentStep b
                       (set_nextNoteTime c s))))
                 (set_currentStep a (set_currentStep b
                    (set_nextNoteTime c s))))
            = mkState (playing s) (looping s) (recording s)
                (scheduleAheadTime s) (stepPrecision s) (beatAmount s)
                (channelQueue s) p (nextTime activeSong s)
                (nextTime activeSong s
                 - Z2F p * (60 / tempo activeSong * Z2F (beatAmount s)))%float
                a (nextTime activeSong s) (ChannelsOf (Z.to_nat p))
                (metronome s)).
  { intros a b c. unfold positioned.
    change (reachedPattern activeSong
              (set_currentStep a (set_currentStep b (set_nextNoteTime c s))))
      with p.
    cbn [set_activePattern set_currentStep set_nextNoteTime activePattern
           playing looping recording scheduleAheadTime stepPrecision
           beatAmount channelQueue currentStep metronome].
    now rewrite Z.eqb_refl. }
  unfold nextTime in Hstate at 1. rewrite Hstate in Hs. clear Hstate.
  destruct (countingIn s);
    (eexists; split; [reflexivity|]; split; [split|split];
     cbn [sequencer events emitted audioContext audioRecording with_sequencer];
     auto; rewrite Hs; reflexivity).
Qed.

Lemma step_stops (activeSong : Song) (w : World) :
  currentStep (sequencer w) + 1 = stepPrecision (sequencer w) ->
  stopsRecording activeSong w = true ->
  step activeSong w
  = Ok tt
      (with_sequencer
         (set_channelQueue
            (map (fun _ => []) (channelQueue (sequencer w)))
            (set_playing false
               (set_activePattern 0
                  (set_currentStep 0
                     (set_nextNoteTime (nextTime activeSong (sequencer w))
                        (sequencer w))))))
         (with_emitted (emitted w ++ [WorkerStop]) w)).
Proof.
  intros Hcs Hstop.
  unfold step.
  unfold bind at 1, modify.
  unfold bind at 1, state.
  unfold bind at 1, setCurrentStep, modify.
  unfold bind at 1, state.
  cbn [sequencer with_sequencer currentStep stepPrecision set_currentStep
         set_nextNoteTime].
  rewrite Hcs, Z.eqb_refl.
  unfold bind at 1, modify.
  unfold bind at 1.
  match goal with |- context [nextMeasure activeSong ?w0] =>
    rewrite (nextMeasure_stops activeSong w0 Hstop) end.
  reflexivity.
Qed.

Lemma reachedPattern_exists (activeSong : Song) (s : SequencerState) :
  patterns activeSong <> [] ->
  0 <= activePattern s ->
  0 <= reachedPattern activeSong s
  /\ exists pat,
       js_index (patterns activeSong) (reachedPattern activeSong s) = Some pat.
Proof.
  intros Hne Hpos.
  assert (Hlen : (0 < length (patterns activeSong))%nat).
  { destruct (patterns activeSong); [contradiction|cbn; lia]. }
  assert (Hp : 0 <= reachedPattern activeSong s
               < Z.of_nat (length (patterns activeSong))).
  { unfold reachedPattern.
    destruct (Z.gtb_spec (activePattern s + 1)
                (Z.of_nat (length (patterns activeSong)) - 1));
      [lia|destruct (looping s); lia]. }
  split; [lia|]. unfold js_index.
  destruct (Z.ltb_spec (reachedPattern activeSong s) 0); [lia|].
  destruct (nth_error (patterns activeSong)
              (Z.to_nat (reachedPattern activeSong s))) eqn:E; [eauto|].
  apply nth_error_None in E. lia.
Qed.

(** [step] always returns in a song that has a pattern, from a pattern that
    is not negative and with an audio context: the time moves on by one
    rounded addition and these conditions hold again. *)
Lemma step_returns (activeSong : Song) (w : World) :
  patterns activeSong <> [] ->
  0 <= activePattern (sequencer w) ->
  audioContext w <> None ->
  exists w',
    step activeSong w = Ok tt w'
    /\ nextNoteTime (sequencer w') = nextTime activeSong (sequencer w)
    /\ stepPrecision (sequencer w') = stepPrecision (sequencer w)
    /\ 0 <= activePattern (sequencer w')
    /\ audioContext w' = audioContext w.
Proof.
  intros Hne Hpos Hctx.
  destruct (Z.eq_dec (currentStep (sequencer w) + 1)
              (stepPrecision (sequencer w))) as [Hcs|Hcs].
  - destruct (stopsRecording activeSong w) eqn:Hstop.
    + rewrite (step_stops _ _ Hcs Hstop). eexists. split; [reflexivity|].
      cbn. repeat split; auto; lia.
    + destruct (reachedPattern_exists activeSong (sequencer w) Hne Hpos)
        as [Hp [pat Hpat]].
      destruct (step_commits activeSong w pat Hcs Hstop Hpat (fun _ => Hctx))
        as (w' & Hrun & [Hs _ Hc _] & _).
      exists w'. split; [exact Hrun|]. rewrite Hs. cbn.
      repeat split; auto. destruct (countingIn (sequencer w)); lia.
  - rewrite (step_within_measure _ _ Hcs). eexists. split; [reflexivity|].
    cbn. auto.
Qed.

(** ** The time of the next note *)

(** C9: every call of [step] replaces [nextNoteTime] by the double sum of
    [nextNoteTime] and ((60 / tempo) * 4) / stepPrecision, and [n] calls in a
    row apply that rounded addition [n] times. *)
Theorem stepTimes_nextNoteTime (activeSong : Song) (n : nat) (w : World) :
  patterns activeSong <> [] ->
  0 <= activePattern (sequencer w) ->
  audioContext w <> None ->
  exists w',
    stepTimes n activeSong w = Ok tt w'
    /\ nextNoteTime (sequencer w')
       = Nat.iter n
           (fun t =>
              (t + ((60 / tempo activeSong) * 4)
                   / Z2F (stepPrecision (sequencer w)))%float)
           (nextNoteTime (sequencer w)).
Proof.
  intro Hne. revert w.
  induction n as [|n IH]; intros w Hpos Hctx.
  - exists w. split; reflexivity.
  - destruct (step_returns activeSong w Hne Hpos Hctx)
      as (w1 & Hrun1 & Ht & Hp & Hpos1 & Hc).
    destruct (IH w1 Hpos1 ltac:(now rewrite Hc)) as (w' & Hrun & Hn).
    exists w'. split.
    + cbn [stepTimes]. unfold bind. now rewrite Hrun1.
    + rewrite Hn, Hp, Ht. unfold nextTime.
      rewrite Nat.iter_succ_r. reflexivity.
Qed.

(** C9 at 120 BPM with 16 steps: the subdivision 0.125 and its multiples are
    doubles, and 16 calls move the time from 0 to 2. *)
Lemma stepTimes_nextNoteTime_witness :
  exists w',
    stepTimes 16 song120 (atStart (shortNotes false)) = Ok tt w'
    /\ nextNoteTime (sequencer w') = 2%float.
Proof.
  apply (stepTimes_nextNoteTime song120 16 (atStart (shortNotes false))).
  - discriminate.
  - cbn. lia.
  - discriminate.
Defined.

(** C9 fails on the whole note: at 75 BPM with 16 steps the subdivision is the
    double 0.2, the third call moves the time from 0.4 to
    0.60000000000000009, and 16 calls from 0 end at 3.2000000000000006,
    which is not the double (60 / 75) * 4 = 3.2000000000000002; neither the
    difference taken in doubles nor the exact one is the whole note. *)
Lemma whole_note_rounded :
  (exists w2 w3,
     stepTimes 2 song75 atStart75 = Ok tt w2
     /\ step song75 w2 = Ok tt w3
     /\ nextNoteTime (sequencer w2) = 0.4%float
     /\ nextNoteTime (sequencer w3) = 0.60000000000000009%float
     /\ PrimFloat.eqb
          (nextNoteTime (sequencer w3) - nextNoteTime (sequencer w2))
          (((60 / tempo song75) * 4) / Z2F (stepPrecision (sequencer w2)))
        = false)
  /\ (exists w',
        stepTimes 16 song75 atStart75 = Ok tt w'
        /\ nextNoteTime (sequencer atStart75) = 0%float
        /\ nextNoteTime (sequencer w') = 3.2000000000000006%float
        /\ PrimFloat.eqb
             (nextNoteTime (sequencer w') - nextNoteTime (sequencer atStart75))
             ((60 / tempo song75) * 4) = false
        /\ ~ (F2Q (nextNoteTime (sequencer w'))
              - F2Q (nextNoteTime (sequencer atStart75))
              == F2Q ((60 / tempo song75) * 4))%Q).
Proof.
  split.
  - do 2 eexists. split; [vm_compute; reflexivity|].
    split; [vm_compute; reflexivity|]. repeat split.
  - eexists. split; [vm_compute; reflexivity|].
    split; [reflexivity|]. split; [reflexivity|]. split; [reflexivity|].
    vm_compute. discriminate.
Qed.

(** ** The end of a measure *)

(** C3: in a song that has a pattern and from a pattern that is not negative,
    a call of [step] with [currentStep + 1] equal to [stepPrecision] leaves
    [currentStep] at 0.  When [activePattern + 1] exceeds the last index
    while the output is recorded and the sequencer does not loop, it sets
    [activePattern] to 0 and [playing] to false and commits no position.
    Otherwise it commits the position at pattern 0 when [activePattern + 1]
    exceeds the last index, at the unchanged pattern when it is in range and
    the sequencer loops, at [activePattern + 1] when it is in range and the
    sequencer does not loop; [activePattern] ends as that pattern unless a
    count in ends in this call, which leaves it at 0. *)
Theorem step_end_of_measure (activeSong : Song) (w : World) :
  let s := sequencer w in
  let maxMeasure := Z.of_nat (length (patterns activeSong)) - 1 in
  let reached :=
    if activePattern s + 1 >? maxMeasure then 0
    else if looping s then activePattern s
    else activePattern s + 1 in
  currentStep s + 1 = stepPrecision s ->
  patterns activeSong <> [] ->
  0 <= activePattern s ->
  (countingIn s = true -> audioContext w <> None) ->
  exists w',
    step activeSong w = Ok tt w'
    /\ currentStep (sequencer w') = 0
    /\ if (activePattern s + 1 >? maxMeasure)
          && audioRecording w && negb (looping s)
       then playing (sequencer w') = false
            /\ activePattern (sequencer w') = 0
            /\ measureStartTime (sequencer w') = measureStartTime s
            /\ firstMeasureStartTime (sequencer w') = firstMeasureStartTime s
            /\ channels (sequencer w') = channels s
       else playing (sequencer w') = playing s
            /\ measureStartTime (sequencer w') = nextNoteTime (sequencer w')
            /\ channels (sequencer w') = ChannelsOf (Z.to_nat reached)
            /\ activePattern (sequencer w')
               = if countingIn s then 0 else reached.
Proof.
  intros s maxMeasure reached Hcs Hne Hpos Hctx.
  change ((activePattern s + 1 >? maxMeasure) && audioRecording w
          && negb (looping s))
    with (stopsRecording activeSong w).
  destruct (stopsRecording activeSong w) eqn:Hstop.
  - rewrite (step_stops _ _ Hcs Hstop). eexists. split; [reflexivity|].
    cbn. repeat split.
  - destruct (reachedPattern_exists activeSong s Hne Hpos) as [_ [pat Hpat]].
    destruct (step_commits activeSong w pat Hcs Hstop Hpat Hctx)
      as (w' & Hrun & [Hs _ _ _] & _).
    exists w'. split; [exact Hrun|]. rewrite Hs. cbn. repeat split.
Qed.

(** C3 at the last step of the first of two patterns. *)
Lemma step_end_of_measure_witness :
  exists w',
    step song2 (lastStep 0 false false) = Ok tt w'
    /\ currentStep (sequencer w') = 0
    /\ playing (sequencer w') = true
    /\ measureStartTime (sequencer w') = nextNoteTime (sequencer w')
    /\ channels (sequencer w') = ChannelsOf 1
    /\ activePattern (sequencer w') = 1.
Proof.
  apply (step_end_of_measure song2 (lastStep 0 false false)).
  - reflexivity.
  - discriminate.
  - cbn. lia.
  - discriminate.
Defined.

(** C3 fails on the pattern [step] leaves.  With a count in under way, the
    end of pattern 0 of two commits the position at pattern 1 and leaves
    [activePattern] at 0, not advanced by one.  With the sequencer looping,
    the end of the last pattern, 1, leaves [activePattern] at 0, not
    unchanged. *)
Lemma step_pattern_reset :
  (exists w',
     step song2 (lastStep 0 false true) = Ok tt w'
     /\ looping (sequencer (lastStep 0 false true)) = false
     /\ channels (sequencer w') = ChannelsOf 1
     /\ activePattern (sequencer w') = 0
     /\ activePattern (sequencer w')
        <> activePattern (sequencer (lastStep 0 false true)) + 1)
  /\ (exists w',
        step song2 (lastStep 1 true false) = Ok tt w'
        /\ looping (sequencer (lastStep 1 true false)) = true
        /\ activePattern (sequencer w') = 0
        /\ activePattern (sequencer w')
           <> activePattern (sequencer (lastStep 1 true false))).
Proof.
  split; eexists; (split; [vm_compute; reflexivity|]); cbn;
    repeat split; discriminate.
Qed.

(** ** A pass of [collect] over the channels *)

Lemma same_data_refl (e : AudioEvent) : same_data e e.
Proof. repeat split. Qed.

Lemma same_data_trans (e1 e2 e3 : AudioEvent) :
  same_data e1 e2 -> same_data e2 e3 -> same_data e1 e3.
Proof.
  unfold same_data. intros (?&?&?&?&?&?) (?&?&?&?&?&?).
  repeat split; congruence.
Qed.

Lemma reaches_refl (w : World) :
  reaches w w (channelQueue (sequencer w)) [].
Proof.
  split; auto using app_nil_r. now rewrite set_channelQueue_same.
Qed.

Lemma same_data_enqueued (activeSong : Song) (s : SequencerState)
  (e : AudioEvent) :
  same_data e (enqueued activeSong s e).
Proof. repeat split. Qed.

Lemma indexed_bound {A : Type} (l : list A) (ic : nat * A) :
  In ic (indexed l) -> (fst ic < length l)%nat.
Proof.
  unfold indexed. destruct ic as [i x]. intro H.
  apply in_combine_l, in_seq in H. cbn. lia.
Qed.

Lemma in_indexed {A : Type} (l : list A) (x : A) :
  In x l -> exists i, In (i, x) (indexed l).
Proof.
  unfold indexed. generalize 0%nat.
  induction l as [|y l IH]; intros a H; [contradiction|].
  destruct H as [->|H].
  - exists a. now left.
  - destruct (IH (S a) H) as [i Hi]. exists i. now right.
Qed.

Lemma scanned_in (chs : list Channel) (channel : Channel) (id : ev_id) :
  In channel chs -> In (SEvent id) channel -> scanned chs id = true.
Proof.
  intros Hch Hid. destruct (in_indexed chs channel Hch) as [i Hi].
  unfold scanned. apply existsb_exists. exists (i, channel).
  split; [now apply -> in_rev|].
  apply existsb_exists. exists (SEvent id).
  split; [now apply -> in_rev|]. cbn. apply Nat.eqb_refl.
Qed.

Create HintDb pass.

#[local] Hint Resolve reaches_refl same_data_refl same_data_enqueued : pass.

(** The lemmas of this section are about passes at one compare time. *)
Section Pass.

Variable compareTime : float.

Lemma in_range_same_data (e e' : AudioEvent) :
  same_data e e' ->
  in_range compareTime (seq e') = in_range compareTime (seq e).
Proof.
  unfold same_data, in_range. intros (_&_&_&_&Ho&Hl). now rewrite Ho, Hl.
Qed.

Lemma passed_refl (w : World) :
  passed compareTime (fun _ => false) w w.
Proof.
  split; [|split; [|split]].
  - exists (channelQueue (sequencer w)), []. split; [apply reaches_refl|auto].
  - intro id. apply same_data_refl.
  - discriminate.
  - reflexivity.
Qed.

Lemma eligible_passed (visited : ev_id -> bool) (w w' : World)
  (id : ev_id) :
  passed compareTime visited w w' -> eligible w' id = eligible w id.
Proof.
  intros [(cq & log & [Hs _ _ _] & _) [Hd _]].
  unfold eligible. destruct (Hd id) as (_&_&Hr&Hm&_).
  rewrite Hr, Hm, Hs. reflexivity.
Qed.

Lemma passed_trans (v1 v2 : ev_id -> bool)
  (w w1 w' : World) :
  passed compareTime v1 w w1 -> passed compareTime v2 w1 w' ->
  passed compareTime (fun id => v1 id || v2 id) w w'.
Proof.
  intros H1 H2.
  assert (He : forall id, eligible w1 id = eligible w id)
    by (intro id; apply (eligible_passed _ _ _ _ H1)).
  destruct H1 as [(cq1 & log1 & [Hs1 He1 Hc1 Hr1] & Hl1) (Hd1 & Hin1 & Hout1)].
  destruct H2 as [(cq2 & log2 & [Hs2 He2 Hc2 Hr2] & Hl2) (Hd2 & Hin2 & Hout2)].
  split; [|split; [|split]].
  - exists cq2, (log1 ++ log2). split; [split|].
    + rewrite Hs2, Hs1. reflexivity.
    + rewrite He2, He1. now rewrite app_assoc.
    + congruence.
    + congruence.
    + rewrite Hl2, Hs1. exact Hl1.
  - intro id. exact (same_data_trans _ _ _ (Hd1 id) (Hd2 id)).
  - intros id Hv Hel.
    destruct (v2 id) eqn:E2.
    + rewrite (Hin2 id E2) by (now rewrite He).
      apply in_range_same_data, Hd1.
    + rewrite (Hout2 id) by (now left).
      apply Hin1; [|exact Hel]. now rewrite orb_false_r in Hv.
  - intros id Hid.
    assert (H1 : v1 id = false \/ eligible w id = false).
    { destruct Hid as [Hv|Hel]; [|now right].
      apply orb_false_elim in Hv. now left. }
    assert (H2 : v2 id = false \/ eligible w1 id = false).
    { destruct Hid as [Hv|Hel]; [|right; now rewrite He].
      apply orb_false_elim in Hv. now left. }
    now rewrite (Hout2 id H2), (Hout1 id H1).
Qed.

(** A loop whose turns are passes is a pass over all that the turns visit;
    [enough x n] says that [n] queues are enough for the turn of [x]. *)
Lemma forEach_passed {A : Type} (f : A -> M unit)
  (visits : A -> ev_id -> bool) (enough : A -> nat -> Prop) :
  (forall x w, enough x (length (channelQueue (sequencer w))) ->
     exists w', f x w = Ok tt w' /\ passed compareTime (visits x) w w') ->
  forall l w,
    (forall x, In x l -> enough x (length (channelQueue (sequencer w)))) ->
    exists w',
      forEach l f w = Ok tt w'
      /\ passed compareTime (fun id => existsb (fun x => visits x id) l) w w'.
Proof.
  intro Hf. induction l as [|x l IH]; intros w Hl.
  - exists w. split; [reflexivity|apply passed_refl].
  - destruct (Hf x w (Hl x (or_introl eq_refl))) as (w1 & Hrun1 & Hp1).
    assert (Hlen : length (channelQueue (sequencer w1))
                   = length (channelQueue (sequencer w))).
    { destruct Hp1 as [(cq & log & [Hs _ _ _] & Hlen) _].
      now rewrite Hs. }
    destruct (IH w1) as (w' & Hrun & Hp).
    { intros y Hy. rewrite Hlen. apply Hl. now right. }
    exists w'. split.
    + cbn [forEach]. unfold bind. now rewrite Hrun1.
    + exact (passed_trans _ _ _ _ _ Hp1 Hp).
Qed.

Lemma passed_one (event : ev_id) (w w' : World)
  (cq : list LinkedList) (log : list Command) (e' : AudioEvent) :
  reaches w w' cq log ->
  length cq = length (channelQueue (sequencer w)) ->
  (forall j, events w' j = if Nat.eqb j event then e' else events w j) ->
  same_data (events w event) e' ->
  eligible w event = true ->
  seqPlaying (seq e') = in_range compareTime (seq (events w event)) ->
  passed compareTime (holds (SEvent event)) w w'.
Proof.
  intros Hr Hlen Hev Hd Hel Hp.
  split; [|split; [|split]].
  - now exists cq, log.
  - intro id. rewrite Hev.
    destruct (Nat.eqb_spec id event) as [->|_];
      [exact Hd|apply same_data_refl].
  - intros id Hid _. cbn in Hid. apply Nat.eqb_eq in Hid. subst id.
    now rewrite Hev, Nat.eqb_refl.
  - intros id Hid. rewrite Hev.
    destruct (Nat.eqb_spec id event) as [->|_]; [|reflexivity].
    destruct Hid as [Hid|Hid]; [|congruence].
    cbn in Hid. now rewrite Nat.eqb_refl in Hid.
Qed.

Variable activeSong : Song.

Lemma visit_passed (i : nat) (slot : Slot) (w : World) :
  (i < length (channelQueue (sequencer w)))%nat ->
  exists w',
    visit activeSong compareTime i slot w = Ok tt w'
    /\ passed compareTime (holds slot) w w'.
Proof.
  intro Hi.
  destruct slot as [| |event];
    try (exists w; split; [reflexivity|exact (passed_refl w)]).
  unfold visit, bind at 1, get_event. unfold bind at 1, state.
  destruct (eligible w event) eqn:Hel; unfold eligible in Hel;
    apply (f_equal negb) in Hel; rewrite negb_involutive in Hel;
    cbn [negb] in Hel; rewrite Hel.
  2:{ exists w. split; [reflexivity|].
      split; [|split; [|split]].
      - exists (channelQueue (sequencer w)), [].
        split; [apply reaches_refl|auto].
      - intro id. apply same_data_refl.
      - intros id Hid Hel'. cbn in Hid. apply Nat.eqb_eq in Hid. subst id.
        unfold eligible in Hel'. rewrite Hel in Hel'. discriminate.
      - reflexivity. }
  assert (Hel' : eligible w event = true)
    by (unfold eligible; now rewrite Hel).
  destruct (in_range compareTime (seq (events w event))) eqn:Hin.
  - destruct (seqPlaying (seq (events w event))) eqn:Hpl; cbn [negb].
    + exists w. split; [reflexivity|].
      apply (passed_one event w w (channelQueue (sequencer w)) []
               (events w event)); auto with pass.
      * intro j. destruct (Nat.eqb_spec j event) as [->|_]; reflexivity.
      * congruence.
    + destruct (nth_error (channelQueue (sequencer w)) i) as [q|] eqn:Hq.
      2:{ apply nth_error_None in Hq. lia. }
      destruct (Z.eq_dec (action (events w event)) 0) as [Ha|Ha].
      * destruct (enqueueEvent_param activeSong event i w Ha)
          as (w' & Hrun & Hr & Hev).
        exists w'. split; [exact Hrun|].
        apply (passed_one event w w' _ _ _ Hr eq_refl Hev);
          auto with pass.
      * destruct (enqueueEvent_note activeSong event i w q Ha Hq)
          as (w' & Hrun & Hr & Hev).
        exists w'. split; [exact Hrun|].
        apply (passed_one event w w' _ _ _ Hr
                 (list_set_length _ _ _) Hev);
          auto with pass.
  - unfold update_event. eexists. split; [reflexivity|].
    apply (passed_one event w _ (channelQueue (sequencer w)) []
             (set_seqPlaying false (events w event))); auto.
    + split; cbn; auto using app_nil_r. now rewrite set_channelQueue_same.
    + repeat split.
Qed.

Lemma scanChannel_passed (i : nat) (channel : Channel) (w : World) :
  (i < length (channelQueue (sequencer w)))%nat ->
  exists w',
    scanChannel activeSong compareTime i channel w = Ok tt w'
    /\ passed compareTime
         (fun id => existsb (fun slot => holds slot id) (rev channel)) w w'.
Proof.
  intro Hi. unfold scanChannel.
  apply (forEach_passed (visit activeSong compareTime i) holds
           (fun _ n => (i < n)%nat)); auto.
  intros slot w0. apply visit_passed.
Qed.

Lemma scanChannels_passed (chs : list Channel) (w : World) :
  (length chs <= length (channelQueue (sequencer w)))%nat ->
  exists w',
    scanChannels activeSong compareTime chs w = Ok tt w'
    /\ passed compareTime (scanned chs) w w'.
Proof.
  intro Hlen. unfold scanChannels, scanned.
  apply (forEach_passed
           (fun ic => scanChannel activeSong compareTime (fst ic) (snd ic))
           (fun ic id => existsb (fun slot => holds slot id) (rev (snd ic)))
           (fun ic n => (fst ic < n)%nat)).
  - intros ic w0. apply scanChannel_passed.
  - intros ic Hic. apply in_rev, indexed_bound in Hic. lia.
Qed.

End Pass.

Lemma sequence_passed (activeSong : Song) (w : World) :
  let st := sequencer w in
  let chs := channels_of activeSong (channels st) in
  (length chs <= length (channelQueue st))%nat ->
  exists w',
    sequence activeSong w = Ok tt w'
    /\ passed (nextNoteTime st - measureStartTime st) (scanned chs) w w'.
Proof.
  intros st chs Hlen. unfold sequence, bind at 1, state.
  now apply scanChannels_passed.
Qed.

(** ** One playing event per channel *)

(** C1: a pass of [collect] over the channels, each of which has a queue,
    leaves an event of these channels that is not being recorded and belongs
    to the active pattern playing exactly when the compare time is within
    its range; so no two such events of a channel are playing after the pass
    unless the compare time is within the ranges of both.  An event that is
    being recorded or belongs to another pattern is left as it was. *)
Theorem sequence_one_playing (activeSong : Song) (w : World) :
  let st := sequencer w in
  let chs := channels_of activeSong (channels st) in
  let compareTime := (nextNoteTime st - measureStartTime st)%float in
  (length chs <= length (channelQueue st))%nat ->
  exists w',
    sequence activeSong w = Ok tt w'
    /\ (forall channel id,
          In channel chs -> In (SEvent id) channel ->
          eligible w id = true ->
          seqPlaying (seq (events w' id))
          = in_range compareTime (seq (events w id)))
    /\ (forall channel id1 id2,
          In channel chs ->
          In (SEvent id1) channel -> In (SEvent id2) channel ->
          eligible w id1 = true -> eligible w id2 = true ->
          (in_range compareTime (seq (events w id1)) = true ->
           in_range compareTime (seq (events w id2)) = true -> id1 = id2) ->
          seqPlaying (seq (events w' id1)) = true ->
          seqPlaying (seq (events w' id2)) = true ->
          id1 = id2)
    /\ (forall id, eligible w id = false -> events w' id = events w id).
Proof.
  intros st chs compareTime Hlen.
  destruct (sequence_passed activeSong w Hlen)
    as (w' & Hrun & _ & _ & Hin & Hout).
  fold st chs compareTime in Hin, Hout.
  assert (Hflag : forall channel id,
            In channel chs -> In (SEvent id) channel ->
            eligible w id = true ->
            seqPlaying (seq (events w' id))
            = in_range compareTime (seq (events w id))).
  { intros channel id Hch Hid Hel.
    apply Hin; [|exact Hel]. exact (scanned_in chs channel id Hch Hid). }
  exists w'. split; [exact Hrun|]. split; [exact Hflag|]. split.
  - intros channel id1 id2 Hch H1 H2 Hel1 Hel2 Hover Hp1 Hp2.
    rewrite (Hflag channel id1 Hch H1 Hel1) in Hp1.
    rewrite (Hflag channel id2 Hch H2 Hel2) in Hp2.
    now apply Hover.
  - intros id Hel. apply Hout. now right.
Qed.

(** C1 at the start of the sample song: the note of step 0 is in range. *)
Lemma sequence_one_playing_witness :
  exists w',
    sequence song120 (atStart (shortNotes false)) = Ok tt w'
    /\ (forall channel id,
          In channel [twoNotes] -> In (SEvent id) channel ->
          eligible (atStart (shortNotes false)) id = true ->
          seqPlaying (seq (events w' id))
          = in_range 0 (seq (shortNotes false id)))
    /\ (forall channel id1 id2,
          In channel [twoNotes] ->
          In (SEvent id1) channel -> In (SEvent id2) channel ->
          eligible (atStart (shortNotes false)) id1 = true ->
          eligible (atStart (shortNotes false)) id2 = true ->
          (in_range 0 (seq (shortNotes false id1)) = true ->
           in_range 0 (seq (shortNotes false id2)) = true -> id1 = id2) ->
          seqPlaying (seq (events w' id1)) = true ->
          seqPlaying (seq (events w' id2)) = true ->
          id1 = id2)
    /\ (forall id, eligible (atStart (shortNotes false)) id = false ->
          events w' id = shortNotes false id).
Proof.
  apply (sequence_one_playing song120 (atStart (shortNotes false))).
  cbn. lia.
Defined.

(** C1 fails when a note is held over the start of the next: event 0 of
    step 0 lasts 1 s, event 1 starts at 0.5 s.  After [collect] has run from
    0 s with the audio clock at 0.4 s, event 1 has been started and event 0
    sent its note off, and both events of the channel are playing. *)
Lemma held_note_stays_playing :
  exists w',
    collect 5 song120 (atStart heldNote) = Ok tt w'
    /\ emitted w' = [NoteOn 0 0 0; NoteOn 1 0 0.5; NoteOff 0 0.5]
    /\ channels_of song120 (channels (sequencer w')) = [twoNotes]
    /\ In (SEvent 0) twoNotes /\ In (SEvent 1) twoNotes
    /\ seqPlaying (seq (events w' 0%nat)) = true
    /\ seqPlaying (seq (events w' 1%nat)) = true.
Proof.
  eexists. split; [vm_compute; reflexivity|].
  cbn. repeat split; auto 10.
Qed.

(** ** The end of the count in *)

(** C10: when the count in of a recording ends in [step], at the end of a
    measure, [activePattern] is left at 0 while [channels], the measure start
    time and the time of the next note are those of the position committed
    at the pattern [pat] reached: the next pass of [collect] goes over the
    channels of [pat] and compares their events with pattern 0, so that it
    leaves every event of another pattern as it is. *)
Theorem count_in_end_keeps_channels (activeSong : Song) (w : World)
  (pat : Pattern) (now : float) :
  let s := sequencer w in
  let maxMeasure := Z.of_nat (length (patterns activeSong)) - 1 in
  let reached :=
    if activePattern s + 1 >? maxMeasure then 0
    else if looping s then activePattern s
    else activePattern s + 1 in
  let t :=
    (nextNoteTime s + ((60 / tempo activeSong) * 4) / Z2F (stepPrecision s))%float in
  currentStep s + 1 = stepPrecision s ->
  recording s = true ->
  countIn (metronome s) = true ->
  countInComplete (metronome s) = false ->
  (activePattern s + 1 >? maxMeasure) && audioRecording w && negb (looping s)
  = false ->
  js_index (patterns activeSong) reached = Some pat ->
  audioContext w = Some now ->
  exists w',
    step activeSong w = Ok tt w'
    /\ activePattern (sequencer w') = 0
    /\ channels (sequencer w') = ChannelsOf (Z.to_nat reached)
    /\ channels_of activeSong (channels (sequencer w')) = patChannels pat
    /\ measureStartTime (sequencer w') = t
    /\ nextNoteTime (sequencer w') = t
    /\ firstMeasureStartTime (sequencer w') = now
    /\ countInComplete (metronome (sequencer w')) = true
    /\ enabled (metronome (sequencer w')) = restore (metronome s)
    /\ sequence activeSong w'
       = scanChannels activeSong (t - t) (patChannels pat) w'
    /\ ((length (patChannels pat)
         <= length (channelQueue (sequencer w')))%nat ->
        exists w'',
          sequence activeSong w' = Ok tt w''
          /\ forall id, startMeasure (seq (events w' id)) <> 0 ->
               events w'' id = events w' id).
Proof.
  intros s maxMeasure reached t Hcs Hrec Hin Hcomplete Hstop Hpat Hctx.
  assert (Hcount : countingIn s = true)
    by (unfold countingIn; now rewrite Hrec, Hin, Hcomplete).
  destruct (step_commits activeSong w pat Hcs Hstop Hpat)
    as (w' & Hrun & [Hs _ _ _] & _).
  { intros _. congruence. }
  change (reachedPattern activeSong (sequencer w)) with reached in Hs.
  unfold afterMeasure in Hs. fold s in Hs.
  rewrite Hcount in Hs. unfold contextTime in Hs. rewrite Hctx in Hs.
  assert (Hchs : channels_of activeSong (channels (sequencer w'))
                 = patChannels pat).
  { rewrite Hs. cbn. unfold js_index in Hpat.
    destruct (reached <? 0); [discriminate|]. now rewrite Hpat. }
  assert (Hseq : sequence activeSong w'
                 = scanChannels activeSong (t - t) (patChannels pat) w').
  { unfold sequence, bind, state. rewrite Hchs, Hs. reflexivity. }
  exists w'. split; [exact Hrun|].
  split; [now rewrite Hs|]. split; [now rewrite Hs|].
  split; [exact Hchs|].
  split; [now rewrite Hs|]. split; [now rewrite Hs|].
  split; [now rewrite Hs|]. split; [now rewrite Hs|].
  split; [now rewrite Hs|]. split; [exact Hseq|].
  intro Hlen.
  destruct (sequence_passed activeSong w') as (w'' & Hrun' & _ & _ & _ & Hout).
  { now rewrite Hchs. }
  exists w''. split; [exact Hrun'|].
  intros id Hid. apply Hout. right.
  unfold eligible. rewrite Hs. cbn.
  destruct (Z.eqb_spec (startMeasure (seq (events w' id))) 0);
    [contradiction|].
  now rewrite orb_true_r.
Qed.

(** C10 at the last step of the first of two patterns, the count in under
    way and the audio clock at 1.7 s: the position is committed at pattern 1
    and the active pattern is 0. *)
Lemma count_in_end_keeps_channels_witness :
  exists w',
    step song2 (lastStep 0 false true) = Ok tt w'
    /\ activePattern (sequencer w') = 0
    /\ channels (sequencer w') = ChannelsOf 1
    /\ channels_of song2 (channels (sequencer w')) = [[SEvent 1]]
    /\ measureStartTime (sequencer w') = 2%float
    /\ nextNoteTime (sequencer w') = 2%float
    /\ firstMeasureStartTime (sequencer w') = 1.7%float
    /\ countInComplete (metronome (sequencer w')) = true
    /\ enabled (metronome (sequencer w')) = false
    /\ sequence song2 w' = scanChannels song2 (2 - 2) [[SEvent 1]] w'
    /\ ((1 <= length (channelQueue (sequencer w')))%nat ->
        exists w'',
          sequence song2 w' = Ok tt w''
          /\ forall id, startMeasure (seq (events w' id)) <> 0 ->
               events w'' id = events w' id).
Proof.
  apply (count_in_end_keeps_channels song2 (lastStep 0 false true)
           (mkPattern 16 [[SEvent 1]]) 1.7%float); reflexivity.
Defined.

(** The first note of pattern 1 is started by the pass that follows the end
    of pattern 0; it is passed over in silence when the count in has just
    ended there. *)
Lemma count_in_end_skips_first_note :
  (exists w' w'',
     step song2 (lastStep 0 false false) = Ok tt w'
     /\ sequence song2 w' = Ok tt w''
     /\ emitted w'' = [NoteOn 1 0 2])
  /\ (exists w' w'',
        step song2 (lastStep 0 false true) = Ok tt w'
        /\ sequence song2 w' = Ok tt w''
        /\ emitted w'' = []
        /\ seqPlaying (seq (events w'' 1%nat)) = false).
Proof.
  split; do 2 eexists;
    (split; [vm_compute; reflexivity|]);
    (split; [vm_compute; reflexivity|]); cbn; auto.
Qed.

(** * Further properties *)

(** ** What every call keeps *)

Lemma steady_refl (allowed : Command -> Prop) (w : World) :
  steady allowed w w.
Proof.
  split; auto.
  - intro id. apply same_data_refl.
  - exists []. split; [now rewrite app_nil_r|constructor].
Qed.

Lemma steady_trans (allowed : Command -> Prop) (w w1 w' : World) :
  steady allowed w w1 -> steady allowed w1 w' -> steady allowed w w'.
Proof.
  intros [Hq1 Hs1 Hd1 (l1 & Hl1 & Ha1) Hc1 Hr1]
         [Hq2 Hs2 Hd2 (l2 & Hl2 & Ha2) Hc2 Hr2].
  split; try congruence; auto.
  - intro id. exact (same_data_trans _ _ _ (Hd1 id) (Hd2 id)).
  - exists (l1 ++ l2). split.
    + now rewrite Hl2, Hl1, app_assoc.
    + apply Forall_app. now split.
Qed.

Lemma Forall_short_set (cq : list LinkedList) (ch : nat) (q : LinkedList) :
  Forall short cq -> short q -> Forall short (list_set cq ch q).
Proof.
  intros H Hq. revert ch.
  induction H as [|x l Hx Hl IH]; intros [|ch]; cbn; constructor; auto.
Qed.

Lemma Forall_short_empty (cq : list LinkedList) :
  Forall short (map (fun _ => []) cq).
Proof.
  induction cq; cbn; constructor; auto. unfold short. cbn. lia.
Qed.

(** What [reaches] and a store that keeps its data give. *)
Lemma reaches_steady (allowed : Command -> Prop) (w w' : World)
  (cq : list LinkedList) (log : list Command) :
  reaches w w' cq log ->
  length cq = length (channelQueue (sequencer w)) ->
  (Forall short (channelQueue (sequencer w)) -> Forall short cq) ->
  Forall allowed log ->
  (forall id, same_data (events w id) (events w' id)) ->
  steady allowed w w'.
Proof.
  intros [Hs He Hc Hr] Hlen Hshort Hlog Hd.
  split; auto.
  - now rewrite Hs.
  - rewrite Hs. exact Hshort.
  - now exists log.
Qed.

Section Calm.

Variable allowed : Command -> Prop.

Lemma calm_ret {A : Type} (a : A) : calm allowed (ret a).
Proof. intro w. apply steady_refl. Qed.

Lemma calm_throw {A : Type} : calm allowed (@throw A).
Proof. intro w. apply steady_refl. Qed.

Lemma calm_read {A : Type} (f : World -> A) :
  calm allowed (fun w => Ok (f w) w).
Proof. intro w. apply steady_refl. Qed.

Lemma calm_bind {A B : Type} (m : M A) (k : A -> M B) :
  calm allowed m -> (forall a, calm allowed (k a)) -> calm allowed (bind m k).
Proof.
  intros Hm Hk w. unfold bind. specialize (Hm w).
  destruct (m w) as [a w1|w1|]; cbn in *; auto.
  specialize (Hk a w1).
  destruct (k a w1); cbn in *; auto; eapply steady_trans; eauto.
Qed.

Lemma calm_forEach {A : Type} (l : list A) (f : A -> M unit) :
  (forall x, calm allowed (f x)) -> calm allowed (forEach l f).
Proof.
  intro Hf. induction l as [|x l IH]; cbn [forEach].
  - apply calm_ret.
  - apply calm_bind; auto.
Qed.

Lemma calm_modify (f : SequencerState -> SequencerState) :
  (forall s, channelQueue (f s) = channelQueue s) -> calm allowed (modify f).
Proof.
  intros Hf w. cbn. split; cbn; auto.
  - now rewrite Hf.
  - now rewrite Hf.
  - intro id. apply same_data_refl.
  - exists []. split; [now rewrite app_nil_r|constructor].
Qed.

Lemma calm_emit (c : Command) : allowed c -> calm allowed (emit c).
Proof.
  intros Hc w. cbn. split; cbn; auto.
  - intro id. apply same_data_refl.
  - exists [c]. split; [reflexivity|now constructor].
Qed.

Lemma calm_update_event (id : ev_id) (f : AudioEvent -> AudioEvent) :
  (forall e, same_data e (f e)) -> calm allowed (update_event id f).
Proof.
  intros Hf w. cbn. split; cbn; auto.
  - intro j. unfold store_put.
    destruct (Nat.eqb_spec j id) as [->|_]; [apply Hf|apply same_data_refl].
  - exists []. split; [now rewrite app_nil_r|constructor].
Qed.

End Calm.

(** ** A channel without a queue *)

Lemma enqueueEvent_unqueued (activeSong : Song) (event : ev_id) (ch : nat)
  (w : World) :
  action (events w event) <> 0 ->
  nth_error (channelQueue (sequencer w)) ch = None ->
  exists w',
    enqueueEvent activeSong event ch w = Throws w'
    /\ reaches w w' (channelQueue (sequencer w))
         [NoteOn event (instrument (events w event))
            (nextNoteTime (sequencer w))]
    /\ (forall j, events w' j =
          if Nat.eqb j event
          then enqueued activeSong (sequencer w) (events w event)
          else events w j).
Proof.
  intros Ha Hq.
  unfold enqueueEvent.
  unfold bind at 1, state.
  unfold bind at 1, update_event.
  unfold bind at 1, update_event.
  unfold bind at 1, get_event.
  unfold bind at 1, emit.
  cbn. rewrite !store_put_eq. cbn.
  destruct (Z.eqb_spec (action (events w event)) 0) as [E|_]; [contradiction|].
  cbn [negb].
  unfold bind at 1. unfold bind at 1, queue_of. cbn. rewrite Hq.
  eexists. split; [reflexivity|]. split.
  - split; cbn; auto. now rewrite set_channelQueue_same.
  - intro j. cbn. unfold store_put.
    destruct (Nat.eqb j event); reflexivity.
Qed.

Section Quiet.

Variable allowed : Command -> Prop.

Hypothesis allowed_off : forall event time, allowed (NoteOff event time).
Hypothesis allowed_stop : allowed WorkerStop.
Hypothesis allowed_start : forall interval, allowed (WorkerStart interval).
Hypothesis allowed_metronome :
  forall a b c time, allowed (MetronomePlay a b c time).

Lemma calm_state : calm allowed state.
Proof. apply calm_read. Qed.

Lemma calm_get_event (id : ev_id) : calm allowed (get_event id).
Proof. apply calm_read. Qed.

Lemma Forall_noteOff (time : float) (q : LinkedList) :
  Forall allowed (map (fun playingNote => NoteOff playingNote time) q).
Proof. induction q; cbn; constructor; auto. Qed.

Lemma Forall_noteOffs (time : float) (cq : list LinkedList) :
  Forall allowed (noteOffs cq time).
Proof.
  unfold noteOffs. induction cq; cbn; [constructor|].
  apply Forall_app. split; [apply Forall_noteOff|assumption].
Qed.

Lemma same_data_cleared (e : AudioEvent) :
  same_data e (set_seqPlaying false e).
Proof. repeat split. Qed.

Lemma calm_setPlaying (isPlaying : bool) : calm allowed (setPlaying isPlaying).
Proof.
  unfold setPlaying.
  apply calm_bind; [apply calm_modify; reflexivity|intros _].
  destruct isPlaying.
  - apply calm_bind; [apply calm_state|intro st].
    apply calm_bind.
    + destruct (recording st && countIn (metronome st));
        [apply calm_modify; reflexivity|apply calm_ret].
    + intros _. apply calm_bind; [apply calm_modify; reflexivity|intros _].
      now apply calm_emit.
  - apply calm_bind; [now apply calm_emit|intros _].
    intro w. cbn. split; cbn; auto.
    + apply length_map.
    + intros _. apply Forall_short_empty.
    + intro id. apply same_data_refl.
    + exists []. split; [now rewrite app_nil_r|constructor].
Qed.

(** The flush of [setPosition]. *)
Lemma calm_stopAll (time : float) :
  calm allowed
    (st <- state ;;
     if activePattern st =? 0
     then stopQueues 0 (length (channelQueue st)) time
     else ret tt).
Proof.
  intro w. unfold bind, state.
  destruct (activePattern (sequencer w) =? 0); [|apply steady_refl].
  destruct (stopQueues_run time (channelQueue (sequencer w)) [] w eq_refl)
    as (w' & Hrun & Hr & Hin & Hout).
  cbn [length app] in Hrun. rewrite Hrun. cbn.
  apply (reaches_steady allowed w w' _ _ Hr).
  - cbn. apply length_map.
  - intros _. apply Forall_short_empty.
  - apply Forall_noteOffs.
  - intro id.
    destruct (in_dec Nat.eq_dec id (concat (channelQueue (sequencer w))))
      as [Hid|Hid].
    + rewrite (Hin id Hid). apply same_data_cleared.
    + rewrite (Hout id Hid). apply same_data_refl.
Qed.

Lemma calm_setPosition (activeSong : Song) (pattern : Z)
  (currentTime : option float) :
  calm allowed (setPosition activeSong pattern currentTime).
Proof.
  unfold setPosition.
  apply calm_bind; [apply calm_state|intro st].
  apply calm_bind.
  { match goal with |- calm _ (if ?c then _ else _) => destruct c end;
      [apply calm_modify; reflexivity|apply calm_ret]. }
  intros _. apply calm_bind; [apply calm_read|intro ctx].
  do 3 (apply calm_bind; [apply calm_modify; reflexivity|intros _]).
  apply calm_bind; [apply calm_state|intro st'].
  apply calm_bind; [apply calm_modify; reflexivity|intros _].
  match goal with |- calm _ (match ?c with _ => _ end) => destruct c end;
    [|apply calm_throw].
  apply calm_bind; [apply calm_modify; reflexivity|intros _].
  apply calm_stopAll.
Qed.

Lemma calm_nextMeasure (activeSong : Song) :
  calm allowed (nextMeasure activeSong).
Proof.
  unfold nextMeasure.
  apply calm_bind; [apply calm_state|intro st].
  match goal with |- calm _ (if ?c then _ else _) => destruct c end.
  - apply calm_bind; [apply calm_modify; reflexivity|intros _].
    apply calm_bind; [apply calm_read|intro isRecording].
    apply calm_bind; [apply calm_state|intro st'].
    match goal with |- calm _ (if ?c then _ else _) => destruct c end;
      [|apply calm_ret].
    apply calm_bind; [apply calm_setPlaying|intros _; apply calm_ret].
  - match goal with |- calm _ (if ?c then _ else _) => destruct c end;
      [|apply calm_ret].
    apply calm_bind; [|intros _; apply calm_ret].
    unfold gotoNextPattern.
    apply calm_bind; [apply calm_state|intro st'].
    match goal with |- calm _ (if ?c then _ else _) => destruct c end;
      [apply calm_modify; reflexivity|apply calm_ret].
Qed.

Lemma calm_endCountIn : calm allowed endCountIn.
Proof.
  unfold endCountIn.
  apply calm_bind; [apply calm_state|intro st].
  destruct (recording st); [|apply calm_ret].
  match goal with |- calm _ (if ?c then _ else _) => destruct c end;
    [|apply calm_ret].
  apply calm_bind; [apply calm_modify; reflexivity|intros _].
  apply calm_bind; [apply calm_read|intros [now|]]; [|apply calm_throw].
  apply calm_bind; apply calm_modify || intros _; try reflexivity.
  apply calm_modify. reflexivity.
Qed.

Lemma calm_step (activeSong : Song) : calm allowed (step activeSong).
Proof.
  unfold step.
  apply calm_bind; [apply calm_modify; reflexivity|intros _].
  apply calm_bind; [apply calm_state|intro st].
  apply calm_bind; [apply calm_modify; reflexivity|intros _].
  apply calm_bind; [apply calm_state|intro st'].
  match goal with |- calm _ (if ?c then _ else _) => destruct c end;
    [|apply calm_ret].
  apply calm_bind; [apply calm_modify; reflexivity|intros _].
  apply calm_bind; [apply calm_nextMeasure|intros [|]]; [apply calm_ret|].
  apply calm_bind; [apply calm_state|intro st2].
  apply calm_bind; [apply calm_setPosition|intros _].
  apply calm_bind; [apply calm_endCountIn|intros _].
  apply calm_bind; [apply calm_state|intro st3].
  apply calm_modify. reflexivity.
Qed.

End Quiet.

Section Scheduling.

Variable allowed : Command -> Prop.

Hypothesis allowed_off : forall event time, allowed (NoteOff event time).
Hypothesis allowed_stop : allowed WorkerStop.
Hypothesis allowed_start : forall interval, allowed (WorkerStart interval).
Hypothesis allowed_metronome :
  forall a b c time, allowed (MetronomePlay a b c time).

Variable activeSong : Song.

Lemma same_data_put (event : ev_id) (e' : AudioEvent) (w w' : World) :
  same_data (events w event) e' ->
  (forall j, events w' j = if Nat.eqb j event then e' else events w j) ->
  forall id, same_data (events w id) (events w' id).
Proof.
  intros Hd Hev id. rewrite Hev.
  destruct (Nat.eqb_spec id event) as [->|_];
    [exact Hd|apply same_data_refl].
Qed.

Lemma calm_enqueueEvent (event : ev_id) (ch : nat) :
  (forall e i time, allowed (NoteOn e i time)) ->
  calm allowed (enqueueEvent activeSong event ch).
Proof.
  intros Hon w.
  destruct (Z.eq_dec (action (events w event)) 0) as [Ha|Ha].
  - destruct (enqueueEvent_param activeSong event ch w Ha)
      as (w' & Hrun & Hr & Hev).
    rewrite Hrun. cbn.
    apply (reaches_steady allowed w w' _ _ Hr); auto.
    apply (same_data_put event _ w w' (same_data_enqueued _ _ _) Hev).
  - destruct (nth_error (channelQueue (sequencer w)) ch) as [q|] eqn:Hq.
    + destruct (enqueueEvent_note activeSong event ch w q Ha Hq)
        as (w' & Hrun & Hr & Hev).
      rewrite Hrun. cbn.
      apply (reaches_steady allowed w w' _ _ Hr).
      * apply list_set_length.
      * intro Hs. apply Forall_short_set; [exact Hs|].
        unfold short. destruct (action (events w event) =? 1); cbn; lia.
      * constructor; [apply Hon|]. apply Forall_app. split.
        -- now apply Forall_noteOff.
        -- destruct (action (events w event) =? 1); repeat constructor;
             apply allowed_off.
      * apply (same_data_put event _ w w' (same_data_enqueued _ _ _) Hev).
    + destruct (enqueueEvent_unqueued activeSong event ch w Ha Hq)
        as (w' & Hrun & Hr & Hev).
      rewrite Hrun. cbn.
      apply (reaches_steady allowed w w' _ _ Hr); auto.
      apply (same_data_put event _ w w' (same_data_enqueued _ _ _) Hev).
Qed.

Lemma calm_visit (compareTime : float) (i : nat) (slot : Slot) :
  (forall e j time, allowed (NoteOn e j time)) ->
  calm allowed (visit activeSong compareTime i slot).
Proof.
  intro Hon. destruct slot as [| |event]; try apply calm_ret.
  unfold visit.
  apply calm_bind; [apply calm_get_event|intro e].
  apply calm_bind; [apply calm_state|intro st].
  match goal with |- calm _ (if ?c then _ else _) => destruct c end;
    [apply calm_ret|].
  destruct (in_range compareTime (seq e)).
  - destruct (negb (seqPlaying (seq e)));
      [now apply calm_enqueueEvent|apply calm_ret].
  - apply calm_update_event. intro e0. repeat split.
Qed.

Lemma calm_sequence :
  (forall e j time, allowed (NoteOn e j time)) ->
  calm allowed (sequence activeSong).
Proof.
  intro Hon. unfold sequence.
  apply calm_bind; [apply calm_state|intro st].
  unfold scanChannels. apply calm_forEach. intros [i channel].
  unfold scanChannel. apply calm_forEach. intro slot.
  now apply calm_visit.
Qed.

Lemma calm_collectTurn (sequenceEvents : bool) :
  (sequenceEvents = true -> forall e j time, allowed (NoteOn e j time)) ->
  calm allowed (collectTurn activeSong sequenceEvents).
Proof.
  intro Hon. unfold collectTurn.
  apply calm_bind.
  { destruct sequenceEvents; [apply calm_sequence; auto|apply calm_ret]. }
  intros _. apply calm_bind; [apply calm_state|intro st].
  apply calm_bind.
  { destruct (enabled (metronome st));
      [apply calm_emit; apply allowed_metronome|apply calm_ret]. }
  intros _. now apply calm_step.
Qed.

Lemma calm_collectLoop (fuel : nat) (sequenceEvents : bool) :
  (sequenceEvents = true -> forall e j time, allowed (NoteOn e j time)) ->
  calm allowed (collectLoop fuel activeSong sequenceEvents).
Proof.
  intro Hon. induction fuel as [|fuel IH]; intro w; cbn [collectLoop];
    (destruct (audioContext w) as [now|]; [|apply steady_refl]);
    (destruct (PrimFloat.ltb _ _); [|apply steady_refl]).
  - exact I.
  - apply (calm_bind allowed _ _ (calm_collectTurn _ Hon) (fun _ => IH)).
Qed.

End Scheduling.

Lemma calm_collect (fuel : nat) (activeSong : Song) :
  calm (fun _ => True) (collect fuel activeSong).
Proof.
  unfold collect. apply calm_bind; [apply calm_state|intro st].
  apply calm_collectLoop; auto.
Qed.

(** ** One event per queue *)

(** X1: when every queue holds one event at most, so it does after
    [collect], [setPosition] and [setPlaying], whether they return or
    throw. *)
Theorem queues_stay_short (activeSong : Song) (w : World) :
  Forall short (channelQueue (sequencer w)) ->
  (forall fuel,
     after (collect fuel activeSong w)
       (fun w' => Forall short (channelQueue (sequencer w'))))
  /\ (forall pattern currentTime,
        after (setPosition activeSong pattern currentTime w)
          (fun w' => Forall short (channelQueue (sequencer w'))))
  /\ (forall isPlaying,
        after (setPlaying isPlaying w)
          (fun w' => Forall short (channelQueue (sequencer w')))).
Proof.
  intro Hs. split; [|split].
  - intro fuel. pose proof (calm_collect fuel activeSong w) as H.
    destruct (collect fuel activeSong w); cbn in *; auto;
      now apply (steady_short _ _ _ H).
  - intros pattern currentTime.
    pose proof (calm_setPosition (fun _ => True) (fun _ _ => I) activeSong
                  pattern currentTime w) as H.
    destruct (setPosition activeSong pattern currentTime w); cbn in *; auto;
      now apply (steady_short _ _ _ H).
  - intro isPlaying.
    pose proof (calm_setPlaying (fun _ => True) I (fun _ => I) isPlaying w)
      as H.
    destruct (setPlaying isPlaying w); cbn in *; auto;
      now apply (steady_short _ _ _ H).
Qed.

Lemma queues_stay_short_witness :
  (forall fuel,
     after (collect fuel song120 atStep4)
       (fun w' => Forall short (channelQueue (sequencer w'))))
  /\ (forall pattern currentTime,
        after (setPosition song120 pattern currentTime atStep4)
          (fun w' => Forall short (channelQueue (sequencer w'))))
  /\ (forall isPlaying,
        after (setPlaying isPlaying atStep4)
          (fun w' => Forall short (channelQueue (sequencer w')))).
Proof.
  apply (queues_stay_short song120 atStep4).
  repeat constructor.
Defined.

(** X2: [collect], [setPosition] and [setPlaying] leave the number of queues
    as it is, whether they return or throw. *)
Theorem queue_count_constant (activeSong : Song) (w : World) :
  (forall fuel,
     after (collect fuel activeSong w)
       (fun w' => length (channelQueue (sequencer w'))
                  = length (channelQueue (sequencer w))))
  /\ (forall pattern currentTime,
        after (setPosition activeSong pattern currentTime w)
          (fun w' => length (channelQueue (sequencer w'))
                     = length (channelQueue (sequencer w))))
  /\ (forall isPlaying,
        after (setPlaying isPlaying w)
          (fun w' => length (channelQueue (sequencer w'))
                     = length (channelQueue (sequencer w)))).
Proof.
  split; [|split].
  - intro fuel. pose proof (calm_collect fuel activeSong w) as H.
    destruct (collect fuel activeSong w); cbn in *; auto;
      apply (steady_queues _ _ _ H).
  - intros pattern currentTime.
    pose proof (calm_setPosition (fun _ => True) (fun _ _ => I) activeSong
                  pattern currentTime w) as H.
    destruct (setPosition activeSong pattern currentTime w); cbn in *; auto;
      apply (steady_queues _ _ _ H).
  - intro isPlaying.
    pose proof (calm_setPlaying (fun _ => True) I (fun _ => I) isPlaying w)
      as H.
    destruct (setPlaying isPlaying w); cbn in *; auto;
      apply (steady_queues _ _ _ H).
Qed.

(** X3: [collect], [setPosition] and [setPlaying] change nothing of an event
    but [seq.playing] and [seq.mpLength]: its action, instrument, recording
    flag, start measure, offset and length are as before, whether the call
    returns or throws. *)
Theorem event_data_kept (activeSong : Song) (w : World) :
  (forall fuel,
     after (collect fuel activeSong w)
       (fun w' => forall id, same_data (events w id) (events w' id)))
  /\ (forall pattern currentTime,
        after (setPosition activeSong pattern currentTime w)
          (fun w' => forall id, same_data (events w id) (events w' id)))
  /\ (forall isPlaying,
        after (setPlaying isPlaying w)
          (fun w' => forall id, same_data (events w id) (events w' id))).
Proof.
  split; [|split].
  - intro fuel. pose proof (calm_collect fuel activeSong w) as H.
    destruct (collect fuel activeSong w); cbn in *; auto;
      apply (steady_data _ _ _ H).
  - intros pattern currentTime.
    pose proof (calm_setPosition (fun _ => True) (fun _ _ => I) activeSong
                  pattern currentTime w) as H.
    destruct (setPosition activeSong pattern currentTime w); cbn in *; auto;
      apply (steady_data _ _ _ H).
  - intro isPlaying.
    pose proof (calm_setPlaying (fun _ => True) I (fun _ => I) isPlaying w)
      as H.
    destruct (setPlaying isPlaying w); cbn in *; auto;
      apply (steady_data _ _ _ H).
Qed.

(** ** The count in *)

(** X4: while the count in of a recording is under way, [collect] sends no
    [noteOn]: what it adds to the commands sent are metronome ticks, note
    offs and worker messages only, whether it returns or throws. *)
Theorem count_in_starts_no_note (fuel : nat) (activeSong : Song) (w : World) :
  countingIn (sequencer w) = true ->
  after (collect fuel activeSong w)
    (fun w' => exists l, emitted w' = emitted w ++ l /\ Forall startsNoNote l).
Proof.
  intro Hc. unfold collect, bind, state.
  change (recording (sequencer w) && countIn (metronome (sequencer w))
          && negb (countInComplete (metronome (sequencer w))))
    with (countingIn (sequencer w)).
  rewrite Hc. cbn [negb].
  pose proof (calm_collectLoop startsNoNote (fun _ _ => I) I (fun _ => I)
                (fun _ _ _ _ => I) activeSong fuel false) as H.
  specialize (H ltac:(discriminate) w).
  destruct (collectLoop fuel activeSong false w); cbn in *; auto;
    apply (steady_log _ _ _ H).
Qed.

Lemma count_in_starts_no_note_witness :
  after (collect 1 song2 (lastStep 0 false true))
    (fun w' =>
       exists l,
         emitted w' = emitted (lastStep 0 false true) ++ l
         /\ Forall startsNoNote l).
Proof.
  apply (count_in_starts_no_note 1 song2 (lastStep 0 false true)).
  reflexivity.
Defined.

(** ** No retrigger *)

Lemma unchanged_refl (w : World) : unchanged w w.
Proof. now split. Qed.

Lemma unchanged_trans (w w1 w' : World) :
  unchanged w w1 -> unchanged w1 w' -> unchanged w w'.
Proof.
  intros [Hs1 He1 Hv1 Hc1 Hr1] [Hs2 He2 Hv2 Hc2 Hr2].
  split; congruence.
Qed.

Lemma settled_unchanged (compareTime : float) (chs : list Channel)
  (w w' : World) :
  unchanged w w' -> settled compareTime chs w -> settled compareTime chs w'.
Proof.
  intros [Hs _ Hv _ _] H id Hid Hel.
  unfold eligible in Hel. rewrite Hv, Hs in Hel.
  rewrite Hv. now apply H.
Qed.

Lemma forEach_unchanged {A : Type} (f : A -> M unit) (C : World -> Prop)
  (l : list A) :
  (forall w w', unchanged w w' -> C w -> C w') ->
  (forall x, In x l -> forall w, C w ->
     exists w', f x w = Ok tt w' /\ unchanged w w') ->
  forall w, C w -> exists w', forEach l f w = Ok tt w' /\ unchanged w w'.
Proof.
  intros HC. induction l as [|x l IH]; intros Hf w Hw.
  - exists w. split; [reflexivity|apply unchanged_refl].
  - destruct (Hf x (or_introl eq_refl) w Hw) as (w1 & Hrun1 & Hu1).
    destruct (IH (fun y Hy => Hf y (or_intror Hy)) w1 (HC _ _ Hu1 Hw))
      as (w' & Hrun & Hu).
    exists w'. split.
    + cbn [forEach]. unfold bind. now rewrite Hrun1.
    + exact (unchanged_trans _ _ _ Hu1 Hu).
Qed.

Lemma set_seqPlaying_same (e : AudioEvent) :
  set_seqPlaying (seqPlaying (seq e)) e = e.
Proof. destruct e as [a i r [m o l mp p]]. reflexivity. Qed.

Lemma visit_settled (activeSong : Song) (compareTime : float) (i : nat)
  (slot : Slot) (w : World) :
  (forall id, holds slot id = true -> eligible w id = true ->
     seqPlaying (seq (events w id))
     = in_range compareTime (seq (events w id))) ->
  exists w',
    visit activeSong compareTime i slot w = Ok tt w' /\ unchanged w w'.
Proof.
  intro H.
  destruct slot as [| |event];
    try (exists w; split; [reflexivity|apply unchanged_refl]).
  specialize (H event (Nat.eqb_refl event)).
  unfold visit, bind at 1, get_event. unfold bind at 1, state.
  unfold eligible in H.
  destruct (evRecording (events w event)
            || negb (startMeasure (seq (events w event))
                     =? activePattern (sequencer w)));
    [exists w; split; [reflexivity|apply unchanged_refl]|].
  specialize (H eq_refl).
  destruct (in_range compareTime (seq (events w event))).
  - rewrite H. exists w. split; [reflexivity|apply unchanged_refl].
  - unfold update_event. eexists. split; [reflexivity|].
    split; cbn; auto. intro id. unfold store_put.
    destruct (Nat.eqb_spec id event) as [->|_]; [|reflexivity].
    rewrite <- H. apply set_seqPlaying_same.
Qed.

Lemma in_indexed_channel {A : Type} (l : list A) (ic : nat * A) :
  In ic (indexed l) -> In (snd ic) l.
Proof.
  unfold indexed. destruct ic as [i x]. intro H.
  now apply in_combine_r in H.
Qed.

Lemma holds_event (slot : Slot) (id : ev_id) :
  holds slot id = true -> slot = SEvent id.
Proof.
  destruct slot as [| |e]; cbn; try discriminate.
  intro H. apply Nat.eqb_eq in H. now subst.
Qed.

Lemma scanChannels_settled (activeSong : Song) (compareTime : float)
  (chs : list Channel) (w : World) :
  settled compareTime chs w ->
  exists w',
    scanChannels activeSong compareTime chs w = Ok tt w' /\ unchanged w w'.
Proof.
  unfold scanChannels.
  apply forEach_unchanged; [apply settled_unchanged|].
  intros [i channel] Hic. unfold scanChannel. cbn [fst snd].
  apply forEach_unchanged; [apply settled_unchanged|].
  intros slot Hslot w0 Hw0. apply visit_settled.
  intros id Hid Hel. apply Hw0; [|exact Hel].
  apply holds_event in Hid. subst slot.
  apply in_rev, in_indexed_channel in Hic. apply in_rev in Hslot.
  exact (scanned_in chs channel id Hic Hslot).
Qed.

(** X5: an event that is in range and playing is not started again: a pass
    of [collect] that follows a pass at the same position sends nothing and
    leaves the state and every event as they are. *)
Theorem sequence_twice_silent (activeSong : Song) (w : World) :
  (length (channels_of activeSong (channels (sequencer w)))
   <= length (channelQueue (sequencer w)))%nat ->
  exists w1 w2,
    sequence activeSong w = Ok tt w1
    /\ sequence activeSong w1 = Ok tt w2
    /\ emitted w2 = emitted w1
    /\ sequencer w2 = sequencer w1
    /\ forall id, events w2 id = events w1 id.
Proof.
  intro Hlen.
  destruct (sequence_passed activeSong w Hlen) as (w1 & Hrun1 & Hp).
  assert (Hel : forall id, eligible w1 id = eligible w id)
    by (intro id; apply (eligible_passed _ _ _ _ _ Hp)).
  destruct Hp as ((cq & log & [Hs _ _ _] & _) & Hd & Hin & _).
  assert (Hset : settled
                   (nextNoteTime (sequencer w1) - measureStartTime (sequencer w1))
                   (channels_of activeSong (channels (sequencer w1))) w1).
  { rewrite Hs. cbn. intros id Hid Helig.
    rewrite (in_range_same_data _ _ _ (Hd id)).
    apply Hin; [exact Hid|]. now rewrite <- Hel. }
  destruct (scanChannels_settled activeSong _ _ w1 Hset)
    as (w2 & Hrun2 & [Hs2 He2 Hv2 _ _]).
  exists w1, w2. split; [exact Hrun1|]. split; [exact Hrun2|]. auto.
Qed.

Lemma sequence_twice_silent_witness :
  exists w1 w2,
    sequence song120 (atStart (shortNotes false)) = Ok tt w1
    /\ sequence song120 w1 = Ok tt w2
    /\ emitted w2 = emitted w1
    /\ sequencer w2 = sequencer w1
    /\ forall id, events w2 id = events w1 id.
Proof.
  apply (sequence_twice_silent song120 (atStart (shortNotes false))).
  cbn. lia.
Defined.

(** X6: a note (an action other than 0) enqueued on a channel that has no
    queue throws, after its [seq.playing] is set and its [noteOn] sent: the
    event is flagged as playing, and the queues are as before. *)
Theorem enqueueEvent_without_queue (activeSong : Song) (event : ev_id)
  (ch : nat) (w : World) :
  action (events w event) <> 0 ->
  (length (channelQueue (sequencer w)) <= ch)%nat ->
  exists w',
    enqueueEvent activeSong event ch w = Throws w'
    /\ emitted w' =
         emitted w ++ [NoteOn event (instrument (events w event))
                         (nextNoteTime (sequencer w))]
    /\ seqPlaying (seq (events w' event)) = true
    /\ channelQueue (sequencer w') = channelQueue (sequencer w).
Proof.
  intros Ha Hch. apply nth_error_None in Hch.
  destruct (enqueueEvent_unqueued activeSong event ch w Ha Hch)
    as (w' & Hrun & [Hs He _ _] & Hev).
  exists w'. split; [exact Hrun|]. split; [exact He|]. split.
  - now rewrite Hev, Nat.eqb_refl.
  - now rewrite Hs.
Qed.

Lemma enqueueEvent_without_queue_witness :
  exists w',
    enqueueEvent song120 1 3 atStep4 = Throws w'
    /\ emitted w' = [NoteOn 1 0 0.5]
    /\ seqPlaying (seq (events w' 1%nat)) = true
    /\ channelQueue (sequencer w') = [[0%nat]].
Proof.
  apply (enqueueEvent_without_queue song120 1 3 atStep4).
  - cbn. discriminate.
  - cbn. lia.
Defined.

(** ** The position within the song *)

Lemma reachedPattern_bounds (activeSong : Song) (s : SequencerState) :
  0 <= activePattern s < Z.of_nat (length (patterns activeSong)) ->
  0 <= reachedPattern activeSong s < Z.of_nat (length (patterns activeSong)).
Proof.
  intro H. unfold reachedPattern.
  destruct (Z.gtb_spec (activePattern s + 1)
              (Z.of_nat (length (patterns activeSong)) - 1));
    [lia|destruct (looping s); lia].
Qed.

Lemma step_in_bounds (activeSong : Song) (w : World) :
  0 <= currentStep (sequencer w) < stepPrecision (sequencer w) ->
  0 <= activePattern (sequencer w)
    < Z.of_nat (length (patterns activeSong)) ->
  audioContext w <> None ->
  exists w',
    step activeSong w = Ok tt w'
    /\ stepPrecision (sequencer w') = stepPrecision (sequencer w)
    /\ audioContext w' = audioContext w
    /\ 0 <= currentStep (sequencer w') < stepPrecision (sequencer w')
    /\ 0 <= activePattern (sequencer w')
         < Z.of_nat (length (patterns activeSong)).
Proof.
  intros Hcs Hap Hctx.
  assert (Hne : patterns activeSong <> []).
  { intro E. rewrite E in Hap. cbn in Hap. lia. }
  destruct (Z.eq_dec (currentStep (sequencer w) + 1)
              (stepPrecision (sequencer w))) as [Hend|Hend].
  - destruct (stopsRecording activeSong w) eqn:Hstop.
    + rewrite (step_stops _ _ Hend Hstop). eexists. split; [reflexivity|].
      cbn. repeat split; auto; lia.
    + destruct (reachedPattern_exists activeSong (sequencer w) Hne
                  ltac:(lia)) as [_ [pat Hpat]].
      destruct (step_commits activeSong w pat Hend Hstop Hpat (fun _ => Hctx))
        as (w' & Hrun & [Hs _ Hc _] & _).
      exists w'. split; [exact Hrun|]. rewrite Hs. cbn.
      pose proof (reachedPattern_bounds activeSong (sequencer w) Hap).
      repeat split; auto; try lia;
        destruct (countingIn (sequencer w)); lia.
  - rewrite (step_within_measure _ _ Hend). eexists. split; [reflexivity|].
    cbn. repeat split; auto; lia.
Qed.

(** X7: [step] keeps the position within the song.  From a step within
    [0, stepPrecision) and a pattern within [0, patterns.length), with an
    audio context, any number of calls returns and leaves the step and the
    pattern within these bounds. *)
Theorem stepTimes_in_bounds (activeSong : Song) (n : nat) (w : World) :
  0 <= currentStep (sequencer w) < stepPrecision (sequencer w) ->
  0 <= activePattern (sequencer w)
    < Z.of_nat (length (patterns activeSong)) ->
  audioContext w <> None ->
  exists w',
    stepTimes n activeSong w = Ok tt w'
    /\ 0 <= currentStep (sequencer w') < stepPrecision (sequencer w')
    /\ 0 <= activePattern (sequencer w')
         < Z.of_nat (length (patterns activeSong)).
Proof.
  revert w. induction n as [|n IH]; intros w Hcs Hap Hctx.
  - exists w. split; [reflexivity|auto].
  - destruct (step_in_bounds activeSong w Hcs Hap Hctx)
      as (w1 & Hrun1 & _ & Hc & Hcs1 & Hap1).
    destruct (IH w1 Hcs1 Hap1 ltac:(now rewrite Hc)) as (w' & Hrun & H).
    exists w'. split; [|exact H].
    cbn [stepTimes]. unfold bind. now rewrite Hrun1.
Qed.

Lemma stepTimes_in_bounds_witness :
  exists w',
    stepTimes 40 song2 (lastStep 1 false false) = Ok tt w'
    /\ 0 <= currentStep (sequencer w') < stepPrecision (sequencer w')
    /\ 0 <= activePattern (sequencer w') < 2.
Proof.
  apply (stepTimes_in_bounds song2 40 (lastStep 1 false false)).
  - cbn. lia.
  - cbn. lia.
  - discriminate.
Defined.

Lemma stepTimes_within_measure (activeSong : Song) (k : nat) :
  forall w,
    currentStep (sequencer w) + Z.of_nat k < stepPrecision (sequencer w) ->
    exists w' t,
      stepTimes k activeSong w = Ok tt w'
      /\ sequencer w'
         = set_currentStep (currentStep (sequencer w) + Z.of_nat k)
             (set_nextNoteTime t (sequencer w))
      /\ emitted w' = emitted w
      /\ events w' = events w
      /\ audioContext w' = audioContext w
      /\ audioRecording w' = audioRecording w.
Proof.
  induction k as [|k IH]; intros w Hk.
  - exists w, (nextNoteTime (sequencer w)). split; [reflexivity|].
    repeat split. rewrite Z.add_0_r. now destruct (sequencer w).
  - rewrite (Nat2Z.inj_succ k) in Hk.
    assert (Hne : currentStep (sequencer w) + 1 <> stepPrecision (sequencer w))
      by lia.
    cbn [stepTimes]. unfold bind at 1.
    rewrite (step_within_measure _ _ Hne).
    match goal with |- context [stepTimes k activeSong ?w1] =>
      destruct (IH w1) as (w' & t & Hrun & Hs & He & Hv & Hc & Hr) end.
    { cbn. lia. }
    exists w', t. split; [exact Hrun|]. cbn in Hs, He, Hv, Hc, Hr.
    repeat split; auto. rewrite Hs, Nat2Z.inj_succ.
    replace (currentStep (sequencer w) + Z.succ (Z.of_nat k))
      with (currentStep (sequencer w) + 1 + Z.of_nat k) by lia.
    reflexivity.
Qed.

(** X8: a measure lasts [stepPrecision] calls of [step].  From step 0 with a
    step precision of [n + 1], while the output is not recorded, [n] calls
    only move the step to [n] and the time: they send nothing and leave the
    pattern, the channels bound, the measure start time and the queues as
    they are; the next call wraps the step to 0 and commits the position at
    the pattern reached. *)
Theorem measure_lasts_stepPrecision (activeSong : Song) (n : nat) (w : World) :
  let s := sequencer w in
  stepPrecision s = Z.of_nat (S n) ->
  currentStep s = 0 ->
  audioRecording w = false ->
  0 <= activePattern s < Z.of_nat (length (patterns activeSong)) ->
  audioContext w <> None ->
  exists w1 w',
    stepTimes n activeSong w = Ok tt w1
    /\ currentStep (sequencer w1) = Z.of_nat n
    /\ activePattern (sequencer w1) = activePattern s
    /\ channels (sequencer w1) = channels s
    /\ measureStartTime (sequencer w1) = measureStartTime s
    /\ channelQueue (sequencer w1) = channelQueue s
    /\ emitted w1 = emitted w
    /\ step activeSong w1 = Ok tt w'
    /\ currentStep (sequencer w') = 0
    /\ measureStartTime (sequencer w') = nextNoteTime (sequencer w')
    /\ channels (sequencer w')
       = ChannelsOf (Z.to_nat (reachedPattern activeSong s)).
Proof.
  intros s Hprec Hcs Hrec Hap Hctx.
  assert (Hne : patterns activeSong <> []).
  { intro E. rewrite E in Hap. cbn in Hap. lia. }
  destruct (stepTimes_within_measure activeSong n w)
    as (w1 & t & Hrun1 & Hs1 & He1 & _ & Hc1 & Hr1).
  { fold s. lia. }
  fold s in Hs1.
  assert (Hend : currentStep (sequencer w1) + 1 = stepPrecision (sequencer w1))
    by (rewrite Hs1; cbn; lia).
  assert (Hstop : stopsRecording activeSong w1 = false).
  { unfold stopsRecording. rewrite Hr1, Hrec.
    now rewrite andb_false_r. }
  assert (Hreach : reachedPattern activeSong (sequencer w1)
                   = reachedPattern activeSong s)
    by (rewrite Hs1; reflexivity).
  destruct (reachedPattern_exists activeSong s Hne ltac:(lia))
    as [_ [pat Hpat]].
  rewrite <- Hreach in Hpat.
  destruct (step_commits activeSong w1 pat Hend Hstop Hpat)
    as (w' & Hrun & [Hs _ _ _] & _).
  { intros _. now rewrite Hc1. }
  exists w1, w'. split; [exact Hrun1|].
  rewrite Hs1 at 1 2 3 4 5. cbn.
  rewrite Hcs, Z.add_0_l.
  repeat (split; [reflexivity || assumption|]).
  rewrite Hs, Hreach. cbn. auto.
Qed.

Lemma measure_lasts_stepPrecision_witness :
  exists w1 w',
    stepTimes 15 song120 (atStart (shortNotes false)) = Ok tt w1
    /\ currentStep (sequencer w1) = 15
    /\ activePattern (sequencer w1) = 0
    /\ channels (sequencer w1) = ChannelsOf 0
    /\ measureStartTime (sequencer w1) = 0%float
    /\ channelQueue (sequencer w1) = [[]]
    /\ emitted w1 = []
    /\ step song120 w1 = Ok tt w'
    /\ currentStep (sequencer w') = 0
    /\ measureStartTime (sequencer w') = nextNoteTime (sequencer w')
    /\ channels (sequencer w') = ChannelsOf 0.
Proof.
  apply (measure_lasts_stepPrecision song120 15 (atStart (shortNotes false))).
  - reflexivity.
  - reflexivity.
  - reflexivity.
  - cbn. lia.
  - discriminate.
Defined.

(** ** Jumps within the song *)

Lemma noteOffs_empty (cq : list LinkedList) (time : float) :
  noteOffs (map (fun _ => []) cq) time = [].
Proof. unfold noteOffs. induction cq; cbn; auto. Qed.

Lemma concat_empty (cq : list LinkedList) :
  concat (map (fun _ => []) cq) = @nil ev_id.
Proof. induction cq; cbn; auto. Qed.

Lemma targetPattern_min (activeSong : Song) (pattern : Z) :
  targetPattern activeSong pattern
  = Z.min pattern (Z.of_nat (length (patterns activeSong)) - 1).
Proof.
  unfold targetPattern.
  destruct (Z.geb_spec pattern (Z.of_nat (length (patterns activeSong))));
    lia.
Qed.

Lemma targetPattern_exists (activeSong : Song) (pattern : Z) :
  patterns activeSong <> [] -> 0 <= pattern ->
  exists pat,
    js_index (patterns activeSong) (targetPattern activeSong pattern)
    = Some pat.
Proof.
  intros Hne Hpos.
  assert (Hlen : 0 < Z.of_nat (length (patterns activeSong))).
  { destruct (patterns activeSong); [contradiction|cbn [length]; lia]. }
  rewrite targetPattern_min. unfold js_index.
  destruct (Z.ltb_spec (Z.min pattern
              (Z.of_nat (length (patterns activeSong)) - 1)) 0); [lia|].
  destruct (nth_error (patterns activeSong)
              (Z.to_nat (Z.min pattern
                 (Z.of_nat (length (patterns activeSong)) - 1)))) eqn:E;
    [eauto|].
  apply nth_error_None in E. lia.
Qed.

(** X9: a jump to a pattern other than the first stops nothing.  In a song
    of two patterns at least, [setPosition] to a pattern above 0 sends no
    command and leaves the queues and every event, its [seq.playing]
    included, as they are. *)
Theorem setPosition_elsewhere_stops_nothing (activeSong : Song) (pattern : Z)
  (currentTime : option float) (w : World) :
  (2 <= length (patterns activeSong))%nat ->
  0 < pattern ->
  exists w',
    setPosition activeSong pattern currentTime w = Ok tt w'
    /\ activePattern (sequencer w')
       = Z.min pattern (Z.of_nat (length (patterns activeSong)) - 1)
    /\ emitted w' = emitted w
    /\ channelQueue (sequencer w') = channelQueue (sequencer w)
    /\ forall id, events w' id = events w id.
Proof.
  intros Hlen Hpos.
  assert (Hne : patterns activeSong <> [])
    by (intro E; rewrite E in Hlen; cbn in Hlen; lia).
  destruct (targetPattern_exists activeSong pattern Hne ltac:(lia))
    as [pat Hpat].
  destruct (setPosition_run activeSong pattern currentTime w pat Hpat)
    as (w' & Hrun & [Hs He _ _] & _ & Hout).
  assert (Hp : targetPattern activeSong pattern <> 0)
    by (rewrite targetPattern_min; lia).
  apply Z.eqb_neq in Hp. rewrite Hp in Hs, He. apply Z.eqb_neq in Hp.
  exists w'. split; [exact Hrun|]. rewrite Hs. cbn.
  rewrite <- targetPattern_min. repeat split; auto.
  now rewrite He, app_nil_r.
Qed.

Lemma setPosition_elsewhere_stops_nothing_witness :
  exists w',
    setPosition song2 1 None (lastStep 0 false false) = Ok tt w'
    /\ activePattern (sequencer w') = 1
    /\ emitted w' = []
    /\ channelQueue (sequencer w') = [[]]
    /\ forall id, events w' id = firstNotes id.
Proof.
  apply (setPosition_elsewhere_stops_nothing song2 1 None
           (lastStep 0 false false)).
  - cbn. lia.
  - lia.
Defined.

(** X10: [setPosition] is idempotent: in a song that has a pattern, a second
    call for the same pattern, not negative, and the same time sends nothing
    and leaves the state and every event as the first call left them. *)
Theorem setPosition_twice (activeSong : Song) (pattern : Z) (t : float)
  (w : World) :
  patterns activeSong <> [] ->
  0 <= pattern ->
  exists w1 w2,
    setPosition activeSong pattern (Some t) w = Ok tt w1
    /\ setPosition activeSong pattern (Some t) w1 = Ok tt w2
    /\ sequencer w2 = sequencer w1
    /\ emitted w2 = emitted w1
    /\ forall id, events w2 id = events w1 id.
Proof.
  intros Hne Hpos.
  destruct (targetPattern_exists activeSong pattern Hne Hpos) as [pat Hpat].
  destruct (setPosition_run activeSong pattern (Some t) w pat Hpat)
    as (w1 & Hrun1 & [Hs1 _ _ _] & _).
  destruct (setPosition_run activeSong pattern (Some t) w1 pat Hpat)
    as (w2 & Hrun2 & [Hs2 He2 _ _] & Hin2 & Hout2).
  cbn [targetTime sequencer with_sequencer emitted] in Hs1, Hs2, He2.
  exists w1, w2. split; [exact Hrun1|]. split; [exact Hrun2|].
  set (p := targetPattern activeSong pattern) in *.
  match type of Hs2 with _ = set_channelQueue ?x _ =>
    assert (Hq : x = channelQueue (sequencer w1)) end.
  { rewrite Hs1. cbn [channelQueue set_channelQueue].
    destruct (p =? 0); [|reflexivity].
    rewrite map_map. reflexivity. }
  split; [|split].
  - rewrite Hs2, Hq. rewrite Hs1 at 2.
    unfold positioned, set_channelQueue.
    cbn [playing looping recording scheduleAheadTime stepPrecision beatAmount
           channelQueue activePattern measureStartTime firstMeasureStartTime
           currentStep nextNoteTime channels metronome].
    rewrite Z.eqb_refl. rewrite Hs1. reflexivity.
  - rewrite He2. destruct (p =? 0) eqn:Hp; [|apply app_nil_r].
    rewrite <- Hq. now rewrite noteOffs_empty, app_nil_r.
  - intro id. apply Hout2.
    destruct (p =? 0) eqn:Hp; [right|left; now apply Z.eqb_neq].
    rewrite <- Hq. rewrite concat_empty. intros [].
Qed.

Lemma setPosition_twice_witness :
  exists w1 w2,
    setPosition song120 0 (Some 2%float) atStep4 = Ok tt w1
    /\ setPosition song120 0 (Some 2%float) w1 = Ok tt w2
    /\ sequencer w2 = sequencer w1
    /\ emitted w2 = emitted w1
    /\ forall id, events w2 id = events w1 id.
Proof.
  apply (setPosition_twice song120 0 2 atStep4).
  - discriminate.
  - lia.
Defined.

(** X11: [gotoNextPattern] and [gotoPreviousPattern] move the active pattern
    by one inside [0, patterns.length - 1] and do nothing at its ends, so
    that a pattern within these bounds stays within them and each undoes the
    other away from the ends; neither rebinds the channels or changes the
    step and the times, which are left to [setPosition]. *)
Theorem goto_pattern_round_trip (activeSong : Song) (w : World) :
  let s := sequencer w in
  let max := Z.of_nat (length (patterns activeSong)) - 1 in
  0 <= activePattern s <= max ->
  gotoNextPattern activeSong w
  = Ok tt (with_sequencer
             (set_activePattern (Z.min (activePattern s + 1) max) s) w)
  /\ gotoPreviousPattern w
     = Ok tt (with_sequencer
                (set_activePattern (Z.max (activePattern s - 1) 0) s) w)
  /\ (activePattern s < max ->
      exists w1 w2,
        gotoNextPattern activeSong w = Ok tt w1
        /\ gotoPreviousPattern w1 = Ok tt w2
        /\ sequencer w2 = s)
  /\ (0 < activePattern s ->
      exists w1 w2,
        gotoPreviousPattern w = Ok tt w1
        /\ gotoNextPattern activeSong w1 = Ok tt w2
        /\ sequencer w2 = s).
Proof.
  intros s max Hap. subst s max.
  destruct w as [s h l c r]. destruct s.
  unfold gotoNextPattern, gotoPreviousPattern, bind, state, modify, ret.
  cbn [sequencer activePattern with_sequencer set_activePattern] in *.
  repeat split.
  - destruct (Z.ltb_spec activePattern0
                (Z.of_nat (length (patterns activeSong)) - 1)).
    + now rewrite Z.min_l by lia.
    + rewrite Z.min_r by lia.
      now replace (Z.of_nat (length (patterns activeSong)) - 1)
        with activePattern0 by lia.
  - destruct (Z.gtb_spec activePattern0 0).
    + now rewrite Z.max_l by lia.
    + rewrite Z.max_r by lia. now replace activePattern0 with 0 by lia.
  - intro Hlt.
    destruct (Z.ltb_spec activePattern0
                (Z.of_nat (length (patterns activeSong)) - 1)); [|lia].
    do 2 eexists. split; [reflexivity|].
    cbn [sequencer activePattern with_sequencer set_activePattern].
    destruct (Z.gtb_spec (activePattern0 + 1) 0); [|lia].
    split; [reflexivity|]. cbn.
    now replace (activePattern0 + 1 - 1) with activePattern0 by lia.
  - intro Hgt.
    destruct (Z.gtb_spec activePattern0 0); [|lia].
    do 2 eexists. split; [reflexivity|].
    cbn [sequencer activePattern with_sequencer set_activePattern].
    destruct (Z.ltb_spec (activePattern0 - 1)
                (Z.of_nat (length (patterns activeSong)) - 1)); [|lia].
    split; [reflexivity|]. cbn.
    now replace (activePattern0 - 1 + 1) with activePattern0 by lia.
Qed.

Lemma goto_pattern_round_trip_witness :
  gotoNextPattern song2 (lastStep 0 false false)
  = Ok tt (with_sequencer
             (set_activePattern 1 (sequencer (lastStep 0 false false)))
             (lastStep 0 false false))
  /\ gotoPreviousPattern (lastStep 0 false false)
     = Ok tt (with_sequencer
                (set_activePattern 0 (sequencer (lastStep 0 false false)))
                (lastStep 0 false false))
  /\ (0 < 1 ->
      exists w1 w2,
        gotoNextPattern song2 (lastStep 0 false false) = Ok tt w1
        /\ gotoPreviousPattern w1 = Ok tt w2
        /\ sequencer w2 = sequencer (lastStep 0 false false))
  /\ (0 < 0 ->
      exists w1 w2,
        gotoPreviousPattern (lastStep 0 false false) = Ok tt w1
        /\ gotoNextPattern song2 w1 = Ok tt w2
        /\ sequencer w2 = sequencer (lastStep 0 false false)).
Proof.
  apply (goto_pattern_round_trip song2 (lastStep 0 false false)).
  cbn. lia.
Defined.

(** ** The shape of a resized pattern *)

(** X12: [setPatternSteps] keeps the number of channels, whatever the two
    step counts and the lengths of the channels; every channel gets the new
    length when the new count is below the old one or a multiple of it;
    [pattern.steps] becomes the new count when the pattern has a channel,
    and stays as it is when it has none, since it is written in the loop
    over the channels. *)
Theorem setPatternSteps_shape (pattern : Pattern) (newSteps : nat) :
  let resized := setPatternSteps pattern newSteps in
  length (patChannels resized) = length (patChannels pattern)
  /\ ((newSteps < steps pattern)%nat
      \/ (exists k, newSteps = (k * steps pattern)%nat) ->
      Forall (fun channel => length channel = newSteps)
        (patChannels resized))
  /\ (patChannels pattern <> [] -> steps resized = newSteps)
  /\ (patChannels pattern = [] -> resized = pattern).
Proof.
  cbn [setPatternSteps patChannels steps]. split; [apply length_map|].
  split; [|split].
  - intro Hcounts. apply Forall_forall. intros channel Hin.
    apply in_map_iff in Hin as (old & <- & _).
    destruct (Nat.ltb_spec newSteps (steps pattern)) as [Hlt|Hge].
    + now apply transform_length_reduce.
    + destruct Hcounts as [Hlt|[k Hk]]; [lia|].
      now apply (transform_length_multiple _ _ k).
  - now destruct (patChannels pattern).
  - intro E. unfold setPatternSteps. destruct pattern as [m chs].
    cbn [patChannels steps] in *. now subst chs.
Qed.

Lemma transform_increase_nth (oldAmount k : nat) (channel : Channel) (i : nat) :
  (0 < oldAmount)%nat -> (1 <= k)%nat -> (i < oldAmount)%nat ->
  nth (i * k) (transform oldAmount (k * oldAmount) channel) SUndefined
  = nth i channel SUndefined.
Proof.
  intros Hpos Hk Hi. unfold transform.
  destruct (Nat.ltb_spec (k * oldAmount) oldAmount); [nia|].
  destruct (increase_integral k
              (inject_Z (Z.of_nat (k * oldAmount))
               / inject_Z (Z.of_nat oldAmount))%Q channel
              (quotient_integral _ _ _ Hpos eq_refl) Hk
              oldAmount 0%nat 0%Q (repeat SZero (k * oldAmount)))
    as (_ & Hin & _).
  - reflexivity.
  - rewrite repeat_length. nia.
  - apply Hin. lia.
Qed.

Lemma transform_reduce_nth (newSteps k : nat) (channel : Channel) (i : nat) :
  (newSteps < k * newSteps)%nat -> (i < newSteps)%nat ->
  nth i (transform (k * newSteps) newSteps channel) SUndefined
  = nth (i * k) channel SUndefined.
Proof.
  intros Hlt Hi. unfold transform.
  destruct (Nat.ltb_spec newSteps (k * newSteps)); [|lia].
  assert (Hpos : (0 < newSteps)%nat) by lia.
  destruct (reduce_integral k
              (inject_Z (Z.of_nat (k * newSteps))
               / inject_Z (Z.of_nat newSteps))%Q channel
              (quotient_integral _ _ _ Hpos eq_refl)
              newSteps 0%nat 0%Q (repeat SZero newSteps))
    as [_ Hnth].
  - reflexivity.
  - rewrite repeat_length. lia.
  - rewrite Hnth.
    destruct (Nat.leb_spec 0 i), (Nat.ltb_spec i (0 + newSteps));
      cbn [andb]; auto; lia.
Qed.

Lemma transform_there_and_back (oldAmount k : nat) (channel : Channel) :
  (0 < oldAmount)%nat -> (1 <= k)%nat -> length channel = oldAmount ->
  transform (k * oldAmount) oldAmount
    (transform oldAmount (k * oldAmount) channel) = channel.
Proof.
  intros Hpos Hk Hlen.
  assert (Hback : length (transform (k * oldAmount) oldAmount
                            (transform oldAmount (k * oldAmount) channel))
                  = oldAmount).
  { destruct (Nat.eq_dec k 1) as [->|Hk1].
    - apply (transform_length_multiple _ _ 1); lia.
    - apply transform_length_reduce. nia. }
  apply (nth_ext _ _ SUndefined SUndefined).
  - rewrite Hback. lia.
  - intros i Hi. rewrite Hback in Hi.
    destruct (Nat.eq_dec k 1) as [->|Hk1].
    + rewrite Nat.mul_1_l.
      rewrite <- (Nat.mul_1_r i) at 1.
      replace oldAmount with (1 * oldAmount)%nat at 2 by lia.
      rewrite (transform_increase_nth oldAmount 1) by lia.
      rewrite <- (Nat.mul_1_r i) at 1.
      replace oldAmount with (1 * oldAmount)%nat at 2 by lia.
      now rewrite (transform_increase_nth oldAmount 1) by lia.
    + rewrite transform_reduce_nth by nia.
      now apply transform_increase_nth.
Qed.

(** X13: a pattern whose channels have [steps] slots, resized to a multiple
    of its step count and then back, is the pattern it was: the finer
    resolution loses nothing. *)
Theorem setPatternSteps_there_and_back (pattern : Pattern) (k : nat) :
  (0 < steps pattern)%nat ->
  (1 <= k)%nat ->
  Forall (fun channel => length channel = steps pattern)
    (patChannels pattern) ->
  setPatternSteps (setPatternSteps pattern (k * steps pattern))
    (steps pattern)
  = pattern.
Proof.
  intros Hpos Hk Hlen. destruct pattern as [m chs]. cbn [steps patChannels] in *.
  unfold setPatternSteps. cbn [steps patChannels].
  destruct chs as [|channel chs]; [reflexivity|].
  cbn [map]. f_equal. rewrite map_map.
  change (map (fun x => transform (k * m) m (transform m (k * m) x))
            (channel :: chs) = channel :: chs).
  rewrite <- (map_id (channel :: chs)) at 2.
  apply map_ext_in. intros c Hc.
  apply transform_there_and_back; auto.
  rewrite Forall_forall in Hlen. now apply Hlen.
Qed.

Lemma setPatternSteps_there_and_back_witness :
  setPatternSteps
    (setPatternSteps
       (mkPattern 4 [[SEvent 0; SZero; SEvent 1; SEvent 2]; [SZero; SZero; SZero; SEvent 3]])
       (4 * 4))
    4
  = mkPattern 4 [[SEvent 0; SZero; SEvent 1; SEvent 2]; [SZero; SZero; SZero; SEvent 3]].
Proof.
  apply (setPatternSteps_there_and_back
           (mkPattern 4 [[SEvent 0; SZero; SEvent 1; SEvent 2];
                         [SZero; SZero; SZero; SEvent 3]]) 4).
  - cbn. lia.
  - lia.
  - repeat constructor.
Defined.

(** ** The getters after a jump *)

(** X14: after [setPosition] the getters agree with it.  When it returns,
    the pattern it settled on exists, [amountOfSteps] returns the steps of
    that pattern and [position] is that pattern with the step kept for the
    same pattern and 0 for another one.  When it throws, it has left the
    active pattern at one the song does not have, and [amountOfSteps] throws
    as well. *)
Theorem getters_after_setPosition (activeSong : Song) (pattern : Z)
  (currentTime : option float) (w : World) :
  let p := targetPattern activeSong pattern in
  match setPosition activeSong pattern currentTime w with
  | Ok _ w' =>
      (exists pat,
         js_index (patterns activeSong) p = Some pat
         /\ amountOfSteps activeSong w' = Ok (steps pat) w')
      /\ position w'
         = Ok (p, if activePattern (sequencer w) =? p
                  then currentStep (sequencer w) else 0) w'
  | Throws w' =>
      js_index (patterns activeSong) p = None
      /\ amountOfSteps activeSong w' = Throws w'
  | OutOfFuel => False
  end.
Proof.
  intro p.
  destruct (js_index (patterns activeSong) p) as [pat|] eqn:Hpat.
  - destruct (setPosition_run activeSong pattern currentTime w pat Hpat)
      as (w' & Hrun & [Hs _ _ _] & _).
    rewrite Hrun. fold p in Hs. cbn [sequencer with_sequencer] in Hs.
    split.
    + exists pat. split; [reflexivity|].
      unfold amountOfSteps. rewrite Hs.
      cbn [activePattern set_channelQueue positioned]. now rewrite Hpat.
    + unfold position, bind, state, ret. rewrite Hs. reflexivity.
  - destruct (setPosition_throws activeSong pattern currentTime w Hpat)
      as (w' & Hrun & Hp).
    rewrite Hrun. split; [reflexivity|].
    unfold amountOfSteps. rewrite Hp. fold p. now rewrite Hpat.
Qed.

(** ** Stopping *)

(** X15: stopping the sequencer silences nothing.  [setPlaying(false)]
    empties the queues without a [noteOff], so the events that were queued
    keep their [seq.playing]; a tick of the worker is ignored from then on,
    and a jump to the first pattern, which stops what the queues hold, finds
    them empty: all that is sent is the stop of the worker. *)
Theorem stop_silences_nothing (activeSong : Song) (fuel : nat) (t : float)
  (w : World) :
  patterns activeSong <> [] ->
  exists w1 w2,
    setPlaying false w = Ok tt w1
    /\ onmessage fuel activeSong w1 = Ok tt w1
    /\ setPosition activeSong 0 (Some t) w1 = Ok tt w2
    /\ emitted w2 = emitted w ++ [WorkerStop]
    /\ (forall id, events w2 id = events w id)
    /\ channelQueue (sequencer w2)
       = map (fun _ => []) (channelQueue (sequencer w)).
Proof.
  intro Hne.
  destruct (first_pattern_exists activeSong Hne) as [Hp [pat Hpat]].
  set (w1 :=
         with_sequencer
           (set_channelQueue
              (map (fun _ => []) (channelQueue (sequencer w)))
              (set_playing false (sequencer w)))
           (with_emitted (emitted w ++ [WorkerStop]) w)).
  assert (Hq : channelQueue (sequencer w1)
               = map (fun _ => []) (channelQueue (sequencer w)))
    by reflexivity.
  pose proof (setPosition_run activeSong 0 (Some t) w1 pat) as Hrun.
  cbv zeta in Hrun. rewrite Hp in Hrun. specialize (Hrun Hpat).
  destruct Hrun as (w2 & Hrun & [Hs He _ _] & _ & Hout).
  exists w1, w2. split; [reflexivity|]. split; [reflexivity|].
  split; [exact Hrun|].
  cbn [Z.eqb] in Hs, He. rewrite Hq in Hs, He.
  split; [|split].
  - rewrite He, noteOffs_empty, app_nil_r. reflexivity.
  - intro id. rewrite Hout; [reflexivity|].
    right. rewrite Hq, concat_empty. intros [].
  - rewrite Hs. cbn [channelQueue set_channelQueue]. now rewrite map_map.
Qed.

Lemma stop_silences_nothing_witness :
  exists w1 w2,
    setPlaying false atStep4 = Ok tt w1
    /\ onmessage 3 song120 w1 = Ok tt w1
    /\ setPosition song120 0 (Some 2%float) w1 = Ok tt w2
    /\ emitted w2 = emitted atStep4 ++ [WorkerStop]
    /\ (forall id, events w2 id = events atStep4 id)
    /\ channelQueue (sequencer w2)
       = map (fun _ => []) (channelQueue (sequencer atStep4)).
Proof.
  apply (stop_silences_nothing song120 3 2 atStep4).
  discriminate.
Defined.

(** ** The end of a pass *)

Lemma collectLoop_exit (activeSong : Song) (sequenceEvents : bool)
  (fuel : nat) :
  forall w w',
    collectLoop fuel activeSong sequenceEvents w = Ok tt w' ->
    exists now,
      audioContext w' = Some now
      /\ PrimFloat.ltb (nextNoteTime (sequencer w'))
           (now + scheduleAheadTime (sequencer w'))%float = false.
Proof.
  induction fuel as [|fuel IH]; intros w w' Hrun; cbn [collectLoop] in Hrun;
    destruct (audioContext w) as [now|] eqn:Hnow; try discriminate;
    destruct (PrimFloat.ltb _ _) eqn:Hlt; try discriminate.
  - injection Hrun as <-. now exists now.
  - unfold bind in Hrun.
    destruct (collectTurn activeSong sequenceEvents w) as [[] w1|w1|];
      try discriminate.
    now apply (IH w1).
  - injection Hrun as <-. now exists now.
Qed.

(** X16: [collect] returns only when it has scheduled far enough ahead: in
    the state it leaves, [nextNoteTime] is not below the time of the audio
    context, which the pass has not changed, plus [scheduleAheadTime]. *)
Theorem collect_schedules_ahead (fuel : nat) (activeSong : Song)
  (w w' : World) :
  collect fuel activeSong w = Ok tt w' ->
  exists now,
    audioContext w = Some now
    /\ audioContext w' = Some now
    /\ PrimFloat.ltb (nextNoteTime (sequencer w'))
         (now + scheduleAheadTime (sequencer w'))%float = false.
Proof.
  intro Hrun.
  pose proof (calm_collect fuel activeSong w) as Hcalm.
  rewrite Hrun in Hcalm. cbn [after] in Hcalm.
  unfold collect, bind, state in Hrun.
  destruct (collectLoop_exit _ _ _ _ _ Hrun) as (now & Hnow & Hlt).
  exists now. split; [|split; assumption].
  now rewrite <- (steady_context _ _ _ Hcalm).
Qed.

Lemma collect_schedules_ahead_witness :
  exists w' now,
    collect 5 song120 (atStart heldNote) = Ok tt w'
    /\ audioContext (atStart heldNote) = Some now
    /\ audioContext w' = Some now
    /\ PrimFloat.ltb (nextNoteTime (sequencer w'))
         (now + scheduleAheadTime (sequencer w'))%float = false.
Proof.
  eexists.
  assert (Hrun : collect 5 song120 (atStart heldNote) = Ok tt _)
    by (lazy; reflexivity).
  destruct (collect_schedules_ahead 5 song120 (atStart heldNote) _ Hrun)
    as (now & H1 & H2 & H3).
  exists now. repeat split; [exact Hrun|exact H1|exact H2|exact H3].
Defined.

(** ** The count in of a recording *)

Lemma start_counting_in (isEnabled : bool) (w : World) :
  recording (sequencer w) = true ->
  countIn (metronome (sequencer w)) = true ->
  exists w0,
    (setMetronomeEnabled isEnabled ;; setPlaying true) w = Ok tt w0
    /\ sequencer w0
       = set_currentStep 0
           (set_metronome
              (mkMetronome true true false (restore (metronome (sequencer w))))
              (set_playing true (sequencer w)))
    /\ audioContext w0 = audioContext w
    /\ audioRecording w0 = audioRecording w.
Proof.
  intros Hrec Hcount.
  destruct w as [s ev log ctx out].
  destruct s as [pl lo re ahead prec beat cq ap mst fmst cs nnt chs m].
  destruct m as [en ci cic rs].
  cbn [sequencer recording metronome countIn] in Hrec, Hcount. subst re ci.
  eexists. split; [reflexivity|]. repeat split.
Qed.

(** X21: the count in lasts one measure and overrides the metronome switch.
    When a recording with count in is started, whatever was last set with
    [setMetronomeEnabled], the metronome is enabled and stays so for the
    [stepPrecision] steps of a measure; the step that ends the measure
    completes the count in, sets the metronome to its [restore] value and
    starts the song at pattern 0. *)
Theorem count_in_lasts_a_measure (activeSong : Song) (isEnabled : bool)
  (n : nat) (w : World) :
  let s := sequencer w in
  recording s = true ->
  countIn (metronome s) = true ->
  stepPrecision s = Z.of_nat (S n) ->
  audioRecording w = false ->
  0 <= activePattern s < Z.of_nat (length (patterns activeSong)) ->
  audioContext w <> None ->
  exists w0 w1 w',
    (setMetronomeEnabled isEnabled ;; setPlaying true) w = Ok tt w0
    /\ stepTimes n activeSong w0 = Ok tt w1
    /\ step activeSong w1 = Ok tt w'
    /\ countingIn (sequencer w1) = true
    /\ enabled (metronome (sequencer w1)) = true
    /\ countingIn (sequencer w') = false
    /\ enabled (metronome (sequencer w')) = restore (metronome s)
    /\ activePattern (sequencer w') = 0
    /\ currentStep (sequencer w') = 0.
Proof.
  intros s Hrec Hcount Hprec Hout Hap Hctx.
  assert (Hne : patterns activeSong <> []).
  { intro E. rewrite E in Hap. cbn in Hap. lia. }
  destruct (start_counting_in isEnabled w Hrec Hcount)
    as (w0 & Hrun0 & Hs0 & Hc0 & Hr0).
  fold s in Hs0.
  destruct (stepTimes_within_measure activeSong n w0)
    as (w1 & t & Hrun1 & Hs1 & _ & _ & Hc1 & Hr1).
  { rewrite Hs0. cbn [currentStep stepPrecision set_currentStep set_metronome
                        set_playing]. lia. }
  assert (Hs1' : sequencer w1
                 = set_currentStep (Z.of_nat n)
                     (set_nextNoteTime t
                        (set_metronome
                           (mkMetronome true true false (restore (metronome s)))
                           (set_playing true s)))).
  { rewrite Hs1, Hs0. reflexivity. }
  clear Hs1.
  assert (Hcounting : countingIn (sequencer w1) = true).
  { rewrite Hs1'. unfold countingIn. cbn. now rewrite Hrec. }
  assert (Hend : currentStep (sequencer w1) + 1 = stepPrecision (sequencer w1)).
  { rewrite Hs1'. cbn. lia. }
  assert (Hstop : stopsRecording activeSong w1 = false).
  { unfold stopsRecording. rewrite Hr1, Hr0, Hout. now rewrite andb_false_r. }
  destruct (reachedPattern_exists activeSong (sequencer w1) Hne)
    as [_ [pat Hpat]].
  { rewrite Hs1'. cbn. lia. }
  destruct (step_commits activeSong w1 pat Hend Hstop Hpat)
    as (w' & Hrun & [Hs _ _ _] & _).
  { intros _. now rewrite Hc1, Hc0. }
  cbn [sequencer with_sequencer] in Hs.
  exists w0, w1, w'.
  split; [exact Hrun0|]. split; [exact Hrun1|]. split; [exact Hrun|].
  split; [exact Hcounting|].
  split; [now rewrite Hs1'|].
  rewrite Hs. unfold afterMeasure. rewrite Hcounting.
  cbn [set_channelQueue countingIn recording metronome countIn
         countInComplete enabled activePattern currentStep].
  rewrite Hs1'.
  cbn [set_currentStep set_nextNoteTime set_metronome set_playing recording
         metronome countIn countInComplete restore].
  rewrite Hrec. repeat split.
Qed.

Lemma count_in_lasts_a_measure_witness :
  exists w0 w1 w',
    (setMetronomeEnabled false ;; setPlaying true) (lastStep 1 false true)
    = Ok tt w0
    /\ stepTimes 15 song2 w0 = Ok tt w1
    /\ step song2 w1 = Ok tt w'
    /\ countingIn (sequencer w1) = true
    /\ enabled (metronome (sequencer w1)) = true
    /\ countingIn (sequencer w') = false
    /\ enabled (metronome (sequencer w'))
       = restore (metronome (sequencer (lastStep 1 false true)))
    /\ activePattern (sequencer w') = 0
    /\ currentStep (sequencer w') = 0.
Proof.
  apply (count_in_lasts_a_measure song2 false 15 (lastStep 1 false true)).
  - reflexivity.
  - reflexivity.
  - reflexivity.
  - reflexivity.
  - cbn. lia.
  - discriminate.
Defined.

(** * The module parameter panel *)

(** ** The selection of the module list *)

(** What [setSelectedValueInList] makes of an item. *)
Lemma selectFrom_nth_error (value : String.string) (i : nat) :
  forall items k,
    (i <= length items)%nat ->
    nth_error (selectFrom i items value) k
    = if (k <? i)%nat
      then option_map
             (fun option => mkItem (dataValue option) (hasValue value option))
             (nth_error items k)
      else nth_error items k.
Proof.
  induction i as [|i IH]; intros items k Hi; cbn [selectFrom].
  - reflexivity.
  - destruct (nth_error items i) as [option|] eqn:Hnth.
    2:{ apply nth_error_None in Hnth. lia. }
    rewrite IH by (rewrite list_set_length; lia).
    destruct (Nat.ltb_spec k i) as [Hlt|Hge].
    + rewrite nth_error_list_set_ne by lia.
      destruct (Nat.ltb_spec k (S i)); [reflexivity|lia].
    + destruct (Nat.eq_dec k i) as [->|Hne].
      * rewrite nth_error_list_set_eq by lia.
        destruct (Nat.ltb_spec i (S i)); [|lia]. now rewrite Hnth.
      * rewrite nth_error_list_set_ne by lia.
        destruct (Nat.ltb_spec k (S i)); [lia|reflexivity].
Qed.

Lemma setSelectedValueInList_map (items : list ListItem)
  (value : String.string) :
  setSelectedValueInList items value
  = map (fun option => mkItem (dataValue option) (hasValue value option))
      items.
Proof.
  apply nth_error_ext. intro k. unfold setSelectedValueInList.
  rewrite selectFrom_nth_error by lia. rewrite nth_error_map.
  destruct (Nat.ltb_spec k (length items)) as [Hlt|Hge]; [reflexivity|].
  apply nth_error_None in Hge. now rewrite Hge.
Qed.

Lemma selectedFrom_app (i : nat) (items rest : list ListItem) :
  (i <= length items)%nat ->
  selectedFrom i (items ++ rest) = selectedFrom i items.
Proof.
  induction i as [|i IH]; intro Hi; cbn [selectedFrom]; [reflexivity|].
  rewrite nth_error_app1 by lia. rewrite IH by lia. reflexivity.
Qed.

(** [getSelectedValueFromList] gives the value of the last selected item. *)
Lemma getSelectedValueFromList_last (items : list ListItem) :
  getSelectedValueFromList items
  = match find selected (rev items) with
    | Some option => dataValue option
    | None => None
    end.
Proof.
  unfold getSelectedValueFromList.
  induction items as [|x items IH] using rev_ind; [reflexivity|].
  rewrite rev_app_distr, length_app, Nat.add_1_r.
  cbn [rev app find selectedFrom].
  rewrite nth_error_app2 by lia. rewrite Nat.sub_diag. cbn [nth_error].
  destruct (selected x); [reflexivity|].
  rewrite selectedFrom_app by lia. exact IH.
Qed.

Lemma hasValue_dataValue (value : String.string) (option : ListItem) :
  hasValue value option = true -> dataValue option = Some value.
Proof.
  unfold hasValue. destruct (dataValue option) as [v|]; [|discriminate].
  intro E. apply String.eqb_eq in E. now subst.
Qed.

Lemma find_selected_value (value : String.string) (items : list ListItem) :
  match
    find selected
      (map (fun option => mkItem (dataValue option) (hasValue value option))
         items)
  with
  | Some option => dataValue option
  | None => None
  end
  = if existsb (hasValue value) items then Some value else None.
Proof.
  induction items as [|x items IH]; [reflexivity|].
  cbn [map find existsb selected].
  destruct (hasValue value x) eqn:Hx; [|exact IH].
  cbn [orb dataValue]. now apply hasValue_dataValue.
Qed.

Lemma existsb_rev {A : Type} (f : A -> bool) (l : list A) :
  existsb f (rev l) = existsb f l.
Proof.
  apply eq_true_iff_eq. rewrite !existsb_exists.
  split; intros (x & Hin & Hx); exists x; split; auto;
    now apply in_rev in Hin || apply in_rev.
Qed.

Lemma selection_read_back (items : list ListItem) (value : String.string) :
  getSelectedValueFromList (setSelectedValueInList items value)
  = if existsb (hasValue value) items then Some value else None.
Proof.
  rewrite setSelectedValueInList_map.
  rewrite getSelectedValueFromList_last, <- map_rev, find_selected_value.
  now rewrite existsb_rev.
Qed.

(** X17: selecting a value and reading the selection back.
    [setSelectedValueInList] keeps the items' values, marks exactly the
    items that carry the value, and [getSelectedValueFromList] then gives
    the value when an item carries it and [null] when none does. *)
Theorem selected_value_round_trip (items : list ListItem)
  (value : String.string) :
  let marked := setSelectedValueInList items value in
  map dataValue marked = map dataValue items
  /\ (forall option, In option marked ->
        selected option = hasValue value option)
  /\ getSelectedValueFromList marked
     = if existsb (hasValue value) items then Some value else None.
Proof.
  cbv zeta. split; [|split; [|apply selection_read_back]].
  - rewrite setSelectedValueInList_map, map_map. reflexivity.
  - rewrite setSelectedValueInList_map. intros option Hin.
    apply in_map_iff in Hin as (old & <- & _). reflexivity.
Qed.

(** ** The keys *)

(** X18: the keys P and V keep the list and the selected module in step:
    when the module list has an item for each of the three modules, the
    selection of the list after the key is the selected module, which is one
    of the three; the value is left as it is. *)
Theorem module_key_selects (keyCode : Z) (p : Panel) :
  keyCode = 80 \/ keyCode = 86 ->
  (forall module,
     In module ["pitchUp"%string; "pitchDown"%string; "volume"%string] ->
     existsb (hasValue module) (moduleList p) = true) ->
  exists p',
    handleKey "down" keyCode p = Some p'
    /\ In (selectedModule p')
         ["pitchUp"%string; "pitchDown"%string; "volume"%string]
    /\ getSelectedValueFromList (moduleList p') = Some (selectedModule p')
    /\ valueControl p' = valueControl p.
Proof.
  intros Hkey Hlist.
  assert (Hsel : forall module,
            In module ["pitchUp"%string; "pitchDown"%string; "volume"%string] ->
            getSelectedValueFromList
              (setSelectedValueInList (moduleList p) module) = Some module).
  { intros module Hin.
    rewrite selection_read_back. now rewrite (Hlist module Hin). }
  destruct Hkey as [-> | ->]; cbn [handleKey String.eqb Ascii.eqb Bool.eqb
                                    Z.eqb Pos.eqb orb andb].
  - eexists. split; [reflexivity|]. cbn [selectedModule moduleList valueControl].
    destruct (String.eqb (selectedModule p) "pitchUp");
      (split; [cbn; auto|]); (split; [apply Hsel; cbn; auto|reflexivity]).
  - eexists. split; [reflexivity|]. cbn [selectedModule moduleList valueControl].
    split; [cbn; auto|]. split; [apply Hsel; cbn; auto|reflexivity].
Qed.

Lemma module_key_selects_witness :
  exists p',
    handleKey "down" 80 (mkPanel modules "pitchUp" 50) = Some p'
    /\ In (selectedModule p')
         ["pitchUp"%string; "pitchDown"%string; "volume"%string]
    /\ getSelectedValueFromList (moduleList p') = Some (selectedModule p')
    /\ valueControl p' = valueControl (mkPanel modules "pitchUp" 50).
Proof.
  apply (module_key_selects 80 (mkPanel modules "pitchUp" 50)).
  - left. reflexivity.
  - intros module [<-|[<-|[<-|[]]]]; reflexivity.
Defined.

(** X19: P toggles between the two pitch modules only.  Two presses give
    the module back when it was "pitchUp", and give "pitchDown" for every
    other module: from "volume", P does not lead back.  The list is then
    marked for the module reached, and the value is left as it is. *)
Theorem pitch_key_twice (p : Panel) :
  exists p1 p2,
    handleKey "down" 80 p = Some p1
    /\ handleKey "down" 80 p1 = Some p2
    /\ selectedModule p2
       = (if String.eqb (selectedModule p) "pitchUp"
          then "pitchUp" else "pitchDown")%string
    /\ moduleList p2
       = setSelectedValueInList (moduleList p) (selectedModule p2)
    /\ valueControl p2 = valueControl p.
Proof.
  assert (Htwice : forall items u v,
            setSelectedValueInList (setSelectedValueInList items u) v
            = setSelectedValueInList items v).
  { intros items u v. rewrite !setSelectedValueInList_map, map_map.
    reflexivity. }
  cbn [handleKey String.eqb Ascii.eqb Bool.eqb Z.eqb Pos.eqb orb andb].
  do 2 eexists. split; [reflexivity|].
  cbn [selectedModule moduleList valueControl].
  split; [reflexivity|].
  cbn [selectedModule moduleList valueControl].
  rewrite Htwice.
  destruct (String.eqb (selectedModule p) "pitchUp"); cbn; auto.
Qed.

(** X20: a digit key sets the value to a multiple of ten from 10 to 100,
    the digit 0 standing for 100, so that no key gives the value 0; the
    module selection is left as it is. *)
Theorem digit_key_value (keyCode : Z) (p : Panel) :
  48 <= keyCode <= 57 ->
  exists p',
    handleKey "down" keyCode p = Some p'
    /\ moduleList p' = moduleList p
    /\ selectedModule p' = selectedModule p
    /\ valueControl p' = (if keyCode =? 48 then 100 else (keyCode - 48) * 10)
    /\ 10 <= valueControl p' <= 100.
Proof.
  intro Hdigit. unfold handleKey. cbn [String.eqb Ascii.eqb Bool.eqb].
  assert (H27 : (keyCode =? 27) = false) by (apply Z.eqb_neq; lia).
  assert (H13 : (keyCode =? 13) = false) by (apply Z.eqb_neq; lia).
  assert (H71 : (keyCode =? 71) = false) by (apply Z.eqb_neq; lia).
  assert (H80 : (keyCode =? 80) = false) by (apply Z.eqb_neq; lia).
  assert (H86 : (keyCode =? 86) = false) by (apply Z.eqb_neq; lia).
  assert (Hlo : (48 <=? keyCode) = true) by (apply Z.leb_le; lia).
  assert (Hhi : (keyCode <=? 57) = true) by (apply Z.leb_le; lia).
  rewrite H27, H13, H71, H80, H86, Hlo, Hhi. cbn [orb andb].
  eexists. split; [reflexivity|].
  cbn [moduleList selectedModule valueControl].
  split; [reflexivity|]. split; [reflexivity|]. split.
  - destruct (Z.eqb_spec (keyCode - 48) 0), (Z.eqb_spec keyCode 48);
      try lia; reflexivity.
  - destruct (Z.eqb_spec (keyCode - 48) 0); lia.
Qed.

Lemma digit_key_value_witness :
  exists p',
    handleKey "down" 48 (mkPanel modules "volume" 50) = Some p'
    /\ moduleList p' = moduleList (mkPanel modules "volume" 50)
    /\ selectedModule p' = selectedModule (mkPanel modules "volume" 50)
    /\ valueControl p' = (if 48 =? 48 then 100 else (48 - 48) * 10)
    /\ 10 <= valueControl p' <= 100.
Proof.
  apply (digit_key_value 48 (mkPanel modules "volume" 50)). lia.
Defined.
